(** * YouTube transcript node: subtitle selection and cue parsing

    A shallow embedding of [YtubeTranscriptWlang.node.ts]: the identifier
    normaliser, the language matcher, the cue parser, the time parser and the
    per-item control flow of [execute], followed by the properties of the
    specification that were checked against them.

    Conventions of the embedding
    - a JavaScript string is the list of its UTF-16 code units ([N]);
    - a JavaScript number is an IEEE 754 binary64 value, written with the
      standard library's [spec_float] and its operations at precision 53 and
      maximal exponent 1024;
    - a [Record<string, any[]>] is the list of its own (key, value) pairs in
      the order [Object.keys] enumerates them; inherited properties of
      [Object.prototype] are outside the model;
    - the external processes and the file system are the oracles of an
      [Env] record, and every call to them is logged. *)

From Stdlib Require Import String Ascii.
From Stdlib Require Import List ZArith NArith Bool Lia QArith.
From Stdlib Require Import Floats.SpecFloat.
Import ListNotations.
Close Scope Q_scope.

Set Implicit Arguments.

(* ===================================================================== *)
(** ** Strings *)
(* ===================================================================== *)

Module JsString.

Definition char := N.
Definition jstring := list char.

(** An ASCII literal as a JavaScript string. *)
Definition lit (s : string) : jstring :=
  map N_of_ascii (list_ascii_of_string s).

Definition char_eqb (a b : char) : bool := N.eqb a b.

Fixpoint str_eqb (a b : jstring) : bool :=
  match a, b with
  | [], [] => true
  | x :: a', y :: b' => char_eqb x y && str_eqb a' b'
  | _, _ => false
  end.

(** ECMAScript [WhiteSpace] and [LineTerminator] code points, the set that
    [String.prototype.trim] and the numeric conversions strip. *)
Definition isWhiteSpace (c : char) : bool :=
  ((9 <=? c) && (c <=? 13) || (c =? 32) || (c =? 160) || (c =? 5760)
   || (8192 <=? c) && (c <=? 8202) || (c =? 8232) || (c =? 8233)
   || (c =? 8239) || (c =? 8287) || (c =? 12288) || (c =? 65279))%N.

Fixpoint trimStart (s : jstring) : jstring :=
  match s with
  | [] => []
  | c :: s' => if isWhiteSpace c then trimStart s' else s
  end.

Definition trimEnd (s : jstring) : jstring := rev (trimStart (rev s)).

(** [s.trim()] *)
Definition trim (s : jstring) : jstring := trimEnd (trimStart s).

(** [s.startsWith(p)] *)
Fixpoint startsWith (p s : jstring) : bool :=
  match p, s with
  | [], _ => true
  | _ :: _, [] => false
  | x :: p', y :: s' => char_eqb x y && startsWith p' s'
  end.

(** [s.includes(p)] *)
Fixpoint includes (p s : jstring) : bool :=
  startsWith p s ||
  match s with
  | [] => false
  | _ :: s' => includes p s'
  end.

(** [s.split(sep)] for a non-empty separator: the pieces between the
    successive leftmost, non-overlapping occurrences of [sep].  [skip]
    counts the code units of a matched separator still to be passed over,
    [cur] is the piece being collected, last unit first. *)
Fixpoint splitGo (sep : jstring) (skip : nat) (cur s : jstring)
  : list jstring :=
  match s with
  | [] => [rev cur]
  | c :: s' =>
      match skip with
      | S k => splitGo sep k cur s'
      | O =>
          if startsWith sep s
          then rev cur :: splitGo sep (pred (length sep)) [] s'
          else splitGo sep 0 (c :: cur) s'
      end
  end.

Definition split (sep s : jstring) : list jstring := splitGo sep 0 [] s.

(** [parts.join(sep)] *)
Fixpoint join (sep : jstring) (parts : list jstring) : jstring :=
  match parts with
  | [] => []
  | [p] => p
  | p :: rest => p ++ sep ++ join sep rest
  end.

(** JavaScript truthiness of a string. *)
Definition truthy (s : jstring) : bool :=
  match s with [] => false | _ :: _ => true end.

Definition isDigit (c : char) : bool := ((48 <=? c) && (c <=? 57))%N.
Definition digitVal (c : char) : Z := Z.of_N c - 48.

Definition isLower (c : char) : bool := ((97 <=? c) && (c <=? 122))%N.
Definition isUpper (c : char) : bool := ((65 <=? c) && (c <=? 90))%N.

(** Decimal numeral of a natural number, as [String(n)] prints an index. *)
Fixpoint digitsFuel (fuel : nat) (n : N) (acc : jstring) : jstring :=
  match fuel with
  | O => acc
  | S f =>
      let acc' := (48 + n mod 10)%N :: acc in
      if (n <? 10)%N then acc' else digitsFuel f (n / 10)%N acc'
  end.

Definition decimalOfN (n : N) : jstring :=
  digitsFuel (S (N.to_nat (N.log2 n))) n [].

End JsString.
Import JsString.

(* ===================================================================== *)
(** ** Numbers *)
(* ===================================================================== *)

Module JsNumber.

Local Open Scope Z_scope.

(** A Number value: IEEE 754 binary64. *)
Definition number := spec_float.

Definition prec : Z := 53.
Definition emax : Z := 1024.

Definition NaN : number := S754_nan.
Definition add : number -> number -> number := SFadd prec emax.
Definition sub : number -> number -> number := SFsub prec emax.
Definition mul : number -> number -> number := SFmul prec emax.

Definition isNaN (x : number) : bool :=
  match x with S754_nan => true | _ => false end.

Definition isFinite (x : number) : bool :=
  match x with S754_zero _ | S754_finite _ _ _ => true | _ => false end.

(** The Number nearest to the integer [z] (ties to even). *)
Definition ofZ (z : Z) : number := binary_normalize prec emax z 0 false.

(** The Number nearest to the rational [n / d] (ties to even), with the
    sign [neg]; this is the rounding of a numeric literal's mathematical
    value. *)
Definition ofRatio (neg : bool) (n d : positive) : number :=
  let '(q, e, l) := SFdiv_core_binary prec emax (Zpos n) 0 (Zpos d) 0 in
  binary_round_aux prec emax neg q e l.

(** The Number nearest to [m * 10 ^ e10] for a natural [m]. *)
Definition ofDecimal (neg : bool) (m e10 : Z) : number :=
  match m with
  | Zpos p =>
      if (0 <=? e10)%Z
      then ofRatio neg (p * Z.to_pos (10 ^ e10)) 1
      else ofRatio neg p (Z.to_pos (10 ^ (- e10)))
  | _ => S754_zero neg
  end.

(** The exact rational value of a finite Number. *)
Definition exactQ (x : number) : option Q :=
  match x with
  | S754_zero _ => Some (Qmake 0 1)
  | S754_finite s m e =>
      let v := if (0 <=? e)%Z
               then Qmake (Zpos m * 2 ^ e) 1
               else Qmake (Zpos m) (Z.to_pos (2 ^ (- e))) in
      Some (Qred (if s then Qopp v else v))
  | _ => None
  end.

(** *** Numeric literals in strings *)

(** [readDigits acc cnt s]: the longest run of decimal digits at the head of
    [s], accumulated onto [acc]; [cnt] counts the digits read. *)
Fixpoint readDigits (acc : Z) (cnt : nat) (s : jstring)
  : Z * nat * jstring :=
  match s with
  | c :: s' =>
      if isDigit c then readDigits (10 * acc + digitVal c) (S cnt) s'
      else (acc, cnt, s)
  | [] => (acc, cnt, [])
  end.

Inductive literal :=
| LitInfinity
| LitDecimal (mant : Z) (exp10 : Z).

(** [ExponentPart] after the mantissa: [e] or [E], an optional sign and at
    least one digit; anything else leaves the input untouched. *)
Definition readExponent (s : jstring) : Z * jstring :=
  match s with
  | c :: s1 =>
      if (c =? 101)%N || (c =? 69)%N then
        let '(neg, s2) :=
          match s1 with
          | d :: s1' =>
              if (d =? 45)%N then (true, s1')
              else if (d =? 43)%N then (false, s1')
              else (false, s1)
          | [] => (false, s1)
          end in
        let '(ev, ne, s3) := readDigits 0 0 s2 in
        match ne with
        | O => (0%Z, s)
        | S _ => ((if neg then - ev else ev)%Z, s3)
        end
      else (0%Z, s)
  | [] => (0%Z, s)
  end.

(** The longest prefix of [s] that is a [StrUnsignedDecimalLiteral], with
    the rest of [s]. *)
Definition readUnsigned (s : jstring) : option (literal * jstring) :=
  if startsWith (lit "Infinity") s
  then Some (LitInfinity, skipn 8 s)
  else
    let '(ip, ni, r1) := readDigits 0 0 s in
    let withExp (m : Z) (nf : nat) (r : jstring) :=
      let '(ev, r') := readExponent r in
      Some (LitDecimal m (ev - Z.of_nat nf), r') in
    match r1 with
    | c :: r1' =>
        if (c =? 46)%N then
          let '(fp, nf, r2) := readDigits ip 0 r1' in
          match ni, nf with
          | O, O => None
          | _, _ => withExp fp nf r2
          end
        else match ni with O => None | S _ => withExp ip O r1 end
    | [] => match ni with O => None | S _ => withExp ip O r1 end
    end.

(** The longest prefix of [s] that is a [StrDecimalLiteral]. *)
Definition readSigned (s : jstring) : option (bool * literal * jstring) :=
  let '(neg, s') :=
    match s with
    | c :: t =>
        if (c =? 45)%N then (true, t)
        else if (c =? 43)%N then (false, t)
        else (false, s)
    | [] => (false, s)
    end in
  match readUnsigned s' with
  | Some (l, r) => Some (neg, l, r)
  | None => None
  end.

Definition literalValue (neg : bool) (l : literal) : number :=
  match l with
  | LitInfinity => S754_infinity neg
  | LitDecimal m e => ofDecimal neg m e
  end.

(** [parseFloat(s)] *)
Definition parseFloat (s : jstring) : number :=
  match readSigned (trimStart s) with
  | Some (neg, l, _) => literalValue neg l
  | None => NaN
  end.

(** Digits of a [NonDecimalIntegerLiteral] in base [base]. *)
Definition digitIn (base : Z) (c : char) : option Z :=
  let v := if isDigit c then Some (Z.of_N c - 48)
           else if ((97 <=? c) && (c <=? 102))%N then Some (Z.of_N c - 87)
           else if ((65 <=? c) && (c <=? 70))%N then Some (Z.of_N c - 55)
           else None in
  match v with
  | Some d => if (d <? base)%Z then Some d else None
  | None => None
  end.

Fixpoint readBase (base acc : Z) (s : jstring) : option Z :=
  match s with
  | [] => Some acc
  | c :: s' =>
      match digitIn base c with
      | Some d => readBase base (base * acc + d) s'
      | None => None
      end
  end.

Definition nonDecimal (s : jstring) : option (option Z) :=
  match s with
  | z :: p :: ds =>
      if (z =? 48)%N then
        let base := if (p =? 120)%N || (p =? 88)%N then Some 16%Z
                    else if (p =? 111)%N || (p =? 79)%N then Some 8%Z
                    else if (p =? 98)%N || (p =? 66)%N then Some 2%Z
                    else None in
        match base with
        | Some b => Some (match ds with [] => None | _ => readBase b 0 ds end)
        | None => None
        end
      else None
  | _ => None
  end.

(** [Number(s)], which is also unary [+s]: the whole trimmed string must be
    a numeric literal; the empty string is [+0]. *)
Definition toNumber (s : jstring) : number :=
  match trim s with
  | [] => S754_zero false
  | t =>
      match nonDecimal t with
      | Some (Some v) => ofZ v
      | Some None => NaN
      | None =>
          match readSigned t with
          | Some (neg, l, []) => literalValue neg l
          | _ => NaN
          end
      end
  end.

(** *** [Number.prototype.toFixed] with three fraction digits *)

(** The integer [n] for which [n / 1000] is closest to [m * 2 ^ e], the
    larger one of two equally close. *)
Definition scaled3 (m : positive) (e : Z) : Z :=
  if (0 <=? e)%Z then Zpos m * 2 ^ e * 1000
  else (2 * (Zpos m * 1000) + 2 ^ (- e)) / (2 * 2 ^ (- e)).

Definition zeros (k : nat) : jstring := repeat 48%N k.

(** The digits of [n] with a point before the last three, zero-padded to at
    least one integer digit. *)
Definition fixedDigits3 (n : Z) : jstring :=
  let m := decimalOfN (Z.to_N n) in
  let m' := zeros (4 - length m)%nat ++ m in
  firstn (length m' - 3)%nat m' ++ 46%N :: skipn (length m' - 3)%nat m'.

(** [x.toFixed(3)].  For a value that is not finite or whose magnitude
    reaches [10 ^ 21] the method returns [Number::toString(x)]; that text is
    not spelled out here and is kept as [inr x]. *)
Definition toFixed3 (x : number) : jstring + number :=
  match x with
  | S754_zero _ => inl (fixedDigits3 0)
  | S754_finite s m e =>
      match SFcompare (SFabs x) (ofZ (10 ^ 21)) with
      | Some Lt =>
          inl ((if s then [45%N] else []) ++ fixedDigits3 (scaled3 m e))
      | _ => inr x
      end
  | _ => inr x
  end.

(** [+x.toFixed(3)].  On the [Number::toString] branch the conversion back
    gives [x] itself: ECMAScript guarantees [ToNumber(ToString(x)) = x],
    and [Number("NaN")] is [NaN]. *)
Definition plusToFixed3 (x : number) : number :=
  match toFixed3 x with
  | inl s => toNumber s
  | inr y => y
  end.

End JsNumber.
Import JsNumber.

(* ===================================================================== *)
(** ** Time parser and cue parser *)
(* ===================================================================== *)

Record TranscriptItem := {
  text : jstring;
  start : number;
  duration : number
}.

(** [timeToSeconds(timeString)] *)
Definition timeToSeconds (timeString : jstring) : number :=
  match split (lit ":") timeString with
  | [h; m; s] =>
      add (add (mul (toNumber h) (ofZ 3600)) (mul (toNumber m) (ofZ 60)))
          (parseFloat s)
  | [m; s] => add (mul (toNumber m) (ofZ 60)) (parseFloat s)
  | _ => parseFloat timeString
  end.

(** The timing-line separator [' --> ']. *)
Definition arrow : jstring := lit " --> ".

(** [s.replace(/<[^>]*>/g, '')]: every [<] that has a [>] after it is deleted
    together with everything up to the first such [>]. *)
Fixpoint stripTags (s : jstring) : jstring :=
  match s with
  | [] => []
  | c :: s' =>
      if (c =? 60)%N && existsb (N.eqb 62) s'
      then (fix skip (r : jstring) : jstring :=
              match r with
              | [] => []
              | d :: r' => if (d =? 62)%N then stripTags r' else skip r'
              end) s'
      else c :: stripTags s'
  end.

(** The [push] that closes a cue: nothing when the collected text is blank. *)
Definition pushCue (start duration : number) (text : jstring)
  : list TranscriptItem :=
  if truthy (trim text)
  then [ {| text := trim text;
            start := plusToFixed3 start;
            duration := plusToFixed3 duration |} ]
  else [].

(** The inner [while] loop: collects the text lines of the cue opened by the
    timing line, then hands the line it stopped at back to the outer loop
    [k]. *)
Definition cueLoop (k : list jstring -> list TranscriptItem)
  (start duration : number) : jstring -> list jstring -> list TranscriptItem :=
  fix loop (text : jstring) (ls : list jstring) {struct ls} :=
    match ls with
    | [] => pushCue start duration text
    | x :: ls' =>
        if truthy (trim x) && negb (includes arrow x)
        then
          let clean := trim (stripTags x) in
          loop (if truthy clean then text ++ clean ++ lit " " else text) ls'
        else pushCue start duration text ++ k ls
    end.

(** The two timestamps of a timing line: [line.split(' --> ')] destructured
    into its first two elements. *)
Definition cueTimes (line : jstring) : jstring * jstring :=
  let parts := split arrow line in
  (nth 0 parts [], nth 1 parts []).

(** The outer [for] loop over the lines. *)
Fixpoint parseLines (lines : list jstring) : list TranscriptItem :=
  match lines with
  | [] => []
  | l :: rest =>
      let line := trim l in
      if includes arrow line
      then
        let '(startTime, endTime) := cueTimes line in
        let start := timeToSeconds startTime in
        let end_ := timeToSeconds endTime in
        let duration := sub end_ start in
        cueLoop parseLines start duration [] rest
      else parseLines rest
  end.

(** [parseTranscriptContent(content)] *)
Definition parseTranscriptContent (content : jstring) : list TranscriptItem :=
  parseLines (split [10%N] content).

(* ===================================================================== *)
(** ** Identifier normaliser *)
(* ===================================================================== *)

Definition watchPrefix : jstring := lit "https://www.youtube.com/watch?v=".

(** [normalizeVideoUrl(videoId)] *)
Definition normalizeVideoUrl (videoId : jstring) : jstring :=
  if includes (lit "youtube.com") videoId || includes (lit "youtu.be") videoId
  then videoId
  else watchPrefix ++ videoId.

(** The character class [[a-zA-Z0-9_-]]. *)
Definition isIdChar (c : char) : bool :=
  isLower c || isUpper c || isDigit c || (c =? 95)%N || (c =? 45)%N.

(** The greedy run of [[a-zA-Z0-9_-]] at the head of [s]. *)
Fixpoint idRun (s : jstring) : jstring :=
  match s with
  | c :: s' => if isIdChar c then c :: idRun s' else []
  | [] => []
  end.

(** One alternative of the group followed by the capture
    [([a-zA-Z0-9_-]+)], anchored at the head of [s]; the capture needs at
    least one character. *)
Definition matchAfter (alt s : jstring) : option jstring :=
  if startsWith alt s
  then match idRun (skipn (length alt) s) with
       | [] => None
       | id => Some id
       end
  else None.

(** The regular expression
    [/(?:youtube\.com\/watch\?v=|youtu\.be\/)([a-zA-Z0-9_-]+)/] anchored at
    the head of [s]: the alternatives in order. *)
Definition matchHere (s : jstring) : option jstring :=
  match matchAfter (lit "youtube.com/watch?v=") s with
  | Some id => Some id
  | None => matchAfter (lit "youtu.be/") s
  end.

(** [videoInput.match(re)]: the leftmost position where the expression
    matches; the result is capture group 1. *)
Fixpoint matchId (s : jstring) : option jstring :=
  match matchHere s with
  | Some id => Some id
  | None => match s with
            | [] => None
            | _ :: s' => matchId s'
            end
  end.

(** [extractVideoId(videoInput)] *)
Definition extractVideoId (videoInput : jstring) : jstring :=
  if includes (lit "youtube.com") videoInput
     || includes (lit "youtu.be") videoInput
  then match matchId videoInput with
       | Some id => id
       | None => videoInput
       end
  else videoInput.

(* ===================================================================== *)
(** ** Language matcher *)
(* ===================================================================== *)

Section Tracks.

(** A track descriptor ([any] in the source); the matcher never looks
    inside one. *)
Variable Track : Type.

(** [Record<string, any[]>]: own properties in enumeration order. *)
Definition TrackMap := list (jstring * list Track).

(** [Object.keys(r)] *)
Definition keys (r : TrackMap) : list jstring := map fst r.

(** [r[k]]; [None] is [undefined]. *)
Definition get (r : TrackMap) (k : jstring) : option (list Track) :=
  match find (fun kv => str_eqb (fst kv) k) r with
  | Some kv => Some (snd kv)
  | None => None
  end.

(** Truthiness of [r[k]?.length]. *)
Definition hasLength (o : option (list Track)) : bool :=
  match o with
  | Some (_ :: _) => true
  | _ => false
  end.

(** [a || b] on values that are arrays or [undefined]: an array is truthy
    even when it is empty. *)
Definition orElse (a b : option (list Track)) : option (list Track) :=
  match a with
  | Some _ => a
  | None => b
  end.

(** [!!a] *)
Definition isDefined (a : option (list Track)) : bool :=
  match a with Some _ => true | None => false end.

Record Selection := {
  selectedSubtitle : option (list Track);
  isManualSubtitle : bool
}.

Definition langVariants (lang : jstring) : list jstring :=
  [lang; lang ++ lit "_US"; lang ++ lit "-US"; lang ++ lit ".US"].

(** The first [for] loop of [findBestSubtitle]. *)
Fixpoint preferredPass (subtitles autoCaptions : TrackMap)
  (preferManual : bool) (variants : list jstring) : option Selection :=
  match variants with
  | [] => None
  | langVar :: variants' =>
      if preferManual && hasLength (get subtitles langVar)
      then Some {| selectedSubtitle := get subtitles langVar;
                   isManualSubtitle := true |}
      else if negb preferManual
              && (hasLength (get subtitles langVar)
                  || hasLength (get autoCaptions langVar))
      then Some {| selectedSubtitle :=
                     orElse (get subtitles langVar)
                            (get autoCaptions langVar);
                   isManualSubtitle := isDefined (get subtitles langVar) |}
      else preferredPass subtitles autoCaptions preferManual variants'
  end.

(** The second [for] loop ("Fallback: try any available subtitle"). *)
Fixpoint fallbackPass (subtitles autoCaptions : TrackMap)
  (variants : list jstring) : option Selection :=
  match variants with
  | [] => None
  | langVar :: variants' =>
      if hasLength (get subtitles langVar)
         || hasLength (get autoCaptions langVar)
      then Some {| selectedSubtitle :=
                     orElse (get subtitles langVar)
                            (get autoCaptions langVar);
                   isManualSubtitle := isDefined (get subtitles langVar) |}
      else fallbackPass subtitles autoCaptions variants'
  end.

(** [findBestSubtitle(subtitles, autoCaptions, lang, preferManual)] *)
Definition findBestSubtitle (subtitles autoCaptions : TrackMap)
  (lang : jstring) (preferManual : bool) : Selection :=
  match preferredPass subtitles autoCaptions preferManual
          (langVariants lang) with
  | Some r => r
  | None =>
      match fallbackPass subtitles autoCaptions (langVariants lang) with
      | Some r => r
      | None => {| selectedSubtitle := None; isManualSubtitle := false |}
      end
  end.

(** [getAvailableLanguages(subtitles, autoCaptions)] *)
Definition getAvailableLanguages (subtitles autoCaptions : TrackMap)
  : jstring :=
  let allLangs := keys subtitles ++ keys autoCaptions in
  if (0 <? length allLangs)%nat
  then join (lit ", ") allLangs
  else lit "none".

(** *** The matcher as the specification words it

    [selectTrack] follows section 4.3 of the specification: the variant
    used and whether the manual map supplied it, or [None]. *)

(** "has a non-empty entry for that variant" *)
Definition hasEntry (m : TrackMap) (v : jstring) : bool :=
  hasLength (get m v).

Definition inEither (manualTracks autoTracks : TrackMap) (v : jstring)
  : bool :=
  hasEntry manualTracks v || hasEntry autoTracks v.

Definition specPass1 (manualTracks autoTracks : TrackMap)
  (preferManual : bool) (variants : list jstring) : option (jstring * bool) :=
  if preferManual
  then option_map (fun v => (v, true)) (find (hasEntry manualTracks) variants)
  else option_map (fun v => (v, hasEntry manualTracks v))
         (find (inEither manualTracks autoTracks) variants).

Definition specPass2 (manualTracks autoTracks : TrackMap)
  (variants : list jstring) : option (jstring * bool) :=
  option_map (fun v => (v, hasEntry manualTracks v))
    (find (inEither manualTracks autoTracks) variants).

Definition selectTrack (manualTracks autoTracks : TrackMap)
  (lang : jstring) (preferManual : bool) : option (jstring * bool) :=
  let variants :=
    [lang; lang ++ lit "_US"; lang ++ lit "-US"; lang ++ lit ".US"] in
  match specPass1 manualTracks autoTracks preferManual variants with
  | Some r => Some r
  | None => specPass2 manualTracks autoTracks variants
  end.

(** The track list a specification-level result stands for. *)
Definition realise (manualTracks autoTracks : TrackMap)
  (r : option (jstring * bool)) : Selection :=
  match r with
  | Some (v, true) => {| selectedSubtitle := get manualTracks v;
                         isManualSubtitle := true |}
  | Some (v, false) => {| selectedSubtitle := get autoTracks v;
                          isManualSubtitle := false |}
  | None => {| selectedSubtitle := None; isManualSubtitle := false |}
  end.

(** The data-model invariant of a track map: no language is mapped to an
    empty list. *)
Definition TrackMapOk (m : TrackMap) : Prop :=
  forall k, get m k <> Some [].

End Tracks.

Arguments get {Track} r k.
Arguments keys {Track} r.
Arguments hasLength {Track} o.
Arguments hasEntry {Track} m v.
Arguments inEither {Track} manualTracks autoTracks v.
Arguments TrackMapOk {Track} m.

(* ===================================================================== *)
(** ** The per-item operation of [execute] *)
(* ===================================================================== *)

Definition dquote : jstring := [34%N].

(** An error object as the [catch] block sees it: its [message], and the
    [itemIndex] option of a [NodeOperationError]. *)
Record Error := {
  message : jstring;
  errorItem : option nat
}.

Definition NodeOperationError (msg : jstring) (item : option nat) : Error :=
  {| message := msg; errorItem := item |}.

(** Calls that leave the process: the downloader runs ([Exec]) behind both
    collaborators, and the file system. *)
Inductive Event :=
| Exec (cmd : jstring)
| WriteFile (path content : jstring)
| ReadFile (path : jstring)
| Unlink (path : jstring).

Section Execute.

Variable Track : Type.   (* a track descriptor *)
Variable Value : Type.   (* any other JSON value of the metadata *)
Variable W : Type.       (* the state of the outside world *)

Record VideoMetadata := {
  title : option Value;
  info_duration : option Value;
  uploader : option Value;
  upload_date : option Value;
  view_count : option Value;
  description : option Value;
  thumbnail : option Value;
  tags : option Value;
  categories : option Value;
  subtitles : option (TrackMap Track);
  automatic_captions : option (TrackMap Track)
}.

(** The outside world: [inl] is a rejected promise with its message. *)
Record Env := {
  execAsync : jstring -> W -> W * (jstring + jstring);
  JSON_parse : jstring -> jstring + VideoMetadata;
  writeFile : jstring -> jstring -> W -> W * bool;
  readFile : jstring -> W -> W * option jstring;
  unlink : jstring -> W -> W * bool;
  Date_now : W -> W * N;
  tmpdir : jstring;
  path_join : jstring -> jstring -> jstring
}.

Variable env : Env.

(** The node parameters of one input item. *)
Record NodeParameters := {
  p_videoId : jstring;
  p_lang : jstring;
  p_preferManual : bool;
  p_outputFormat : jstring;
  p_includeMetadata : bool;
  p_binaryPath : jstring;
  p_authMethod : jstring;
  p_cookieString : jstring;
  p_cookieFile : jstring
}.

(** What one iteration can change: the world, the log of outside calls and
    the local [cookieFilePath], which the [finally] block reads. *)
Record State := {
  world : W;
  log : list Event;
  cookieFilePath : jstring
}.

Definition M (A : Type) : Type := State -> State * (Error + A).

Definition ret {A} (a : A) : M A := fun st => (st, inr a).
Definition throw {A} (e : Error) : M A := fun st => (st, inl e).
Definition bind {A B} (m : M A) (k : A -> M B) : M B :=
  fun st =>
    match m st with
    | (st', inr a) => k a st'
    | (st', inl e) => (st', inl e)
    end.

Notation "x <- m ;; k" := (bind m (fun x => k))
  (at level 61, m at next level, right associativity).
Notation "m ;;; k" := (bind m (fun _ => k))
  (at level 61, right associativity).

Definition logged (ev : Event) (st : State) (w : W) : State :=
  {| world := w; log := log st ++ [ev]; cookieFilePath := cookieFilePath st |}.

Definition doExec (cmd : jstring) : M (jstring + jstring) :=
  fun st => let '(w, r) := execAsync env cmd (world st) in
            (logged (Exec cmd) st w, inr r).

Definition doWriteFile (path content : jstring) : M bool :=
  fun st => let '(w, r) := writeFile env path content (world st) in
            (logged (WriteFile path content) st w, inr r).

Definition doReadFile (path : jstring) : M (option jstring) :=
  fun st => let '(w, r) := readFile env path (world st) in
            (logged (ReadFile path) st w, inr r).

Definition doUnlink (path : jstring) : M bool :=
  fun st => let '(w, r) := unlink env path (world st) in
            (logged (Unlink path) st w, inr r).

Definition dateNow : M N :=
  fun st => let '(w, t) := Date_now env (world st) in
            ({| world := w; log := log st;
                cookieFilePath := cookieFilePath st |}, inr t).

Definition setCookieFilePath (path : jstring) : M unit :=
  fun st => ({| world := world st; log := log st; cookieFilePath := path |},
             inr tt).

Definition getCookieFilePath : M jstring :=
  fun st => (st, inr (cookieFilePath st)).

(** [getVideoMetadata(binaryPath, cookieFilePath, videoUrl, node)] *)
Definition getVideoMetadata (binaryPath cookiePath videoUrl : jstring)
  : M VideoMetadata :=
  let cmd := binaryPath ++ lit " --dump-json --skip-download" in
  let cmd := if truthy cookiePath
             then cmd ++ lit " --cookies " ++ dquote ++ cookiePath ++ dquote
             else cmd in
  let cmd := cmd ++ lit " " ++ dquote ++ videoUrl ++ dquote in
  r <- doExec cmd ;;
  match r with
  | inr stdout =>
      match JSON_parse env stdout with
      | inr info => ret info
      | inl msg =>
          throw (NodeOperationError
                   (lit "Failed to fetch video metadata: " ++ msg) None)
      end
  | inl msg =>
      throw (NodeOperationError
               (lit "Failed to fetch video metadata: " ++ msg) None)
  end.

(** The loop over [possibleFiles]: the first file that can be read. *)
Fixpoint readFirst (files : list jstring) : M (jstring * jstring) :=
  match files with
  | [] => ret ([], [])
  | file :: files' =>
      r <- doReadFile file ;;
      match r with
      | Some content => ret (content, file)
      | None => readFirst files'
      end
  end.

(** [downloadAndParseTranscript(...)] *)
Definition downloadAndParseTranscript
  (binaryPath cookiePath videoUrl lang : jstring) (itemIndex : nat)
  (isManual : bool) : M (list TranscriptItem) :=
  t <- dateNow ;;
  let outputPath :=
    path_join env (tmpdir env)
      (lit "transcript-" ++ decimalOfN t ++ lit "-"
       ++ decimalOfN (N.of_nat itemIndex)) in
  let flag := if isManual then lit "write-subs" else lit "write-auto-subs" in
  let cmd := binaryPath ++ lit " --" ++ flag ++ lit " --sub-lang " ++ lang
             ++ lit " --skip-download --output " ++ dquote ++ outputPath
             ++ lit ".%(ext)s" ++ dquote in
  let cmd := if truthy cookiePath
             then cmd ++ lit " --cookies " ++ dquote ++ cookiePath ++ dquote
             else cmd in
  let cmd := cmd ++ lit " " ++ dquote ++ videoUrl ++ dquote in
  r <- doExec cmd ;;
  match r with
  | inl msg =>
      throw (NodeOperationError
               (lit "Failed to download transcript: " ++ msg) None)
  | inr _ =>
      let possibleFiles :=
        [ outputPath ++ lit "." ++ lang ++ lit ".vtt";
          outputPath ++ lit "." ++ lang ++ lit ".srt";
          outputPath ++ lit "." ++ lang ++ lit "_US.vtt";
          outputPath ++ lit "." ++ lang ++ lit "_US.srt";
          outputPath ++ lit "." ++ lang ++ lit "-US.vtt";
          outputPath ++ lit "." ++ lang ++ lit "-US.srt" ] in
      found <- readFirst possibleFiles ;;
      let '(transcriptContent, usedFile) := found in
      if negb (truthy transcriptContent)
      then throw (NodeOperationError
                    (lit "Could not read transcript file for language "
                     ++ dquote ++ lang ++ dquote) None)
      else
        let result := parseTranscriptContent transcriptContent in
        (if truthy usedFile
         then doUnlink usedFile ;;; ret tt
         else ret tt) ;;;
        ret result
  end.

(** [extractMetadata(info)]: the properties of the result, in order. *)
Definition extractMetadata (info : VideoMetadata)
  : list (jstring * option Value) :=
  [ (lit "title", title info);
    (lit "duration", info_duration info);
    (lit "uploader", uploader info);
    (lit "uploadDate", upload_date info);
    (lit "viewCount", view_count info);
    (lit "description", description info);
    (lit "thumbnail", thumbnail info);
    (lit "tags", tags info);
    (lit "categories", categories info) ].

Record ResultJson := {
  youtubeId : jstring;
  videoUrl : jstring;
  language : jstring;
  subtitleType : jstring;
  transcriptLength : nat;
  transcript : option (list TranscriptItem);
  transcriptText : option jstring;
  metadata : option (list (jstring * option Value))
}.

Inductive OutputJson :=
| ResultData (r : ResultJson)
| ErrorData (error videoId : jstring).

Record NodeExecutionData := {
  json : OutputJson;
  pairedItem : nat
}.

(** The message of the "no transcript" error. *)
Definition noTranscriptMessage (lang : jstring)
  (subs autoCaptions : TrackMap Track) : jstring :=
  lit "No transcript found for this video with language " ++ dquote ++ lang
  ++ dquote ++ lit ". Available languages: "
  ++ getAvailableLanguages subs autoCaptions.

(** The cookie handling of the [try] block. *)
Definition handleCookies (p : NodeParameters) (itemIndex : nat) : M unit :=
  if str_eqb (p_authMethod p) (lit "cookieString")
  then
    if truthy (trim (p_cookieString p))
    then
      t <- dateNow ;;
      let path := path_join env (tmpdir env)
                    (lit "yt-cookies-" ++ decimalOfN t ++ lit "-"
                     ++ decimalOfN (N.of_nat itemIndex) ++ lit ".txt") in
      setCookieFilePath path ;;;
      doWriteFile path
        (lit "# Netscape HTTP Cookie File" ++ [10%N] ++ p_cookieString p) ;;;
      ret tt
    else ret tt
  else if str_eqb (p_authMethod p) (lit "cookieFile")
  then setCookieFilePath (p_cookieFile p)
  else ret tt.

(** The start of the [try] block after validation: cookies, then the
    metadata, fetched once.  The result is [parsedInfo] and
    [metadataForSubtitles]. *)
Definition fetchInfo (p : NodeParameters) (itemIndex : nat)
  : M (option VideoMetadata * VideoMetadata) :=
  handleCookies p itemIndex ;;;
  cookiePath <- getCookieFilePath ;;
  let url := normalizeVideoUrl (p_videoId p) in
  parsedInfo <-
    (if p_includeMetadata p
     then info <- getVideoMetadata (p_binaryPath p) cookiePath url ;;
          ret (Some info)
     else ret None) ;;
  metadataForSubtitles <-
    match parsedInfo with
    | Some info => ret info
    | None => getVideoMetadata (p_binaryPath p) cookiePath url
    end ;;
  ret (parsedInfo, metadataForSubtitles).

(** [metadataForSubtitles.subtitles || {}] *)
Definition subtitlesOf (info : VideoMetadata) : TrackMap Track :=
  match subtitles info with Some m => m | None => [] end.

(** [metadataForSubtitles.automatic_captions || {}] *)
Definition autoCaptionsOf (info : VideoMetadata) : TrackMap Track :=
  match automatic_captions info with Some m => m | None => [] end.

(** [getNodeParameter('lang', itemIndex) || 'en'] *)
Definition langOf (p : NodeParameters) : jstring :=
  if truthy (p_lang p) then p_lang p else lit "en".

(** The body of the [try] block for one item. *)
Definition tryBody (p : NodeParameters) (itemIndex : nat) : M ResultJson :=
  let videoId := p_videoId p in
  let lang := langOf p in
  let preferManual := p_preferManual p in
  let outputFormat := p_outputFormat p in
  let includeMetadata := p_includeMetadata p in
  let binaryPath := p_binaryPath p in
  if negb (truthy (trim videoId))
  then throw (NodeOperationError
                (lit "The video ID/URL parameter is empty.") (Some itemIndex))
  else
    fetched <- fetchInfo p itemIndex ;;
    let '(parsedInfo, metadataForSubtitles) := fetched in
    cookiePath <- getCookieFilePath ;;
    let url := normalizeVideoUrl videoId in
    let subs := subtitlesOf metadataForSubtitles in
    let autoCaptions := autoCaptionsOf metadataForSubtitles in
    let sel := findBestSubtitle subs autoCaptions lang preferManual in
    match selectedSubtitle sel with
    | None =>
        throw (NodeOperationError (noTranscriptMessage lang subs autoCaptions)
                 (Some itemIndex))
    | Some _ =>
        formattedTranscript <-
          downloadAndParseTranscript binaryPath cookiePath url lang
            itemIndex (isManualSubtitle sel) ;;
        let structured := str_eqb outputFormat (lit "structured")
                          || str_eqb outputFormat (lit "both") in
        let plain := str_eqb outputFormat (lit "plainText")
                     || str_eqb outputFormat (lit "both") in
        ret {| youtubeId := extractVideoId videoId;
               videoUrl := url;
               language := lang;
               subtitleType := if isManualSubtitle sel then lit "manual"
                               else lit "auto-generated";
               transcriptLength := length formattedTranscript;
               transcript := if structured then Some formattedTranscript
                             else None;
               transcriptText :=
                 if plain
                 then Some (join (lit " ") (map text formattedTranscript))
                 else None;
               metadata :=
                 match parsedInfo with
                 | Some info => if includeMetadata
                                then Some (extractMetadata info) else None
                 | None => None
                 end |}
    end.

(** How one iteration of the loop ends. *)
Inductive ItemOutcome :=
| Pushed (out : NodeExecutionData)   (* [returnData.push], next item *)
| Thrown (e : Error).                (* [execute] rejects *)

Definition binaryNotFound (itemIndex : nat) : Error :=
  NodeOperationError
    (lit "yt-dlp binary not found or failed to run. Please check the binaryPath parameter.")
    (Some itemIndex).

(** The [catch] block. *)
Definition catchBlock (continueOnFail : bool) (p : NodeParameters)
  (itemIndex : nat) (error : Error) : ItemOutcome :=
  if includes (lit "yt-dlp") (message error)
     || includes (lit "command not found") (message error)
  then Thrown (binaryNotFound itemIndex)
  else if continueOnFail
  then Pushed {| json := ErrorData (message error) (p_videoId p);
                 pairedItem := itemIndex |}
  else Thrown error.

(** The [finally] block. *)
Definition finallyBlock (p : NodeParameters) (st : State) : State :=
  if truthy (cookieFilePath st)
     && str_eqb (p_authMethod p) (lit "cookieString")
  then fst (doUnlink (cookieFilePath st) st)
  else st.

(** The state at the top of an iteration: [let cookieFilePath = '']. *)
Definition initialState (w : W) : State :=
  {| world := w; log := []; cookieFilePath := [] |}.

(** One iteration of the [for] loop of [execute], from the world [w]:
    the outcome, the world afterwards and the outside calls made. *)
Definition executeItem (continueOnFail : bool) (p : NodeParameters)
  (itemIndex : nat) (w : W) : ItemOutcome * W * list Event :=
  let '(st1, r) := tryBody p itemIndex (initialState w) in
  let outcome :=
    match r with
    | inr result => Pushed {| json := ResultData result;
                              pairedItem := itemIndex |}
    | inl error => catchBlock continueOnFail p itemIndex error
    end in
  let st2 := finallyBlock p st1 in
  (outcome, world st2, log st2).

(** [execute]: the loop over the input items. *)
Fixpoint executeFrom (continueOnFail : bool) (items : list NodeParameters)
  (itemIndex : nat) (returnData : list NodeExecutionData) (w : W)
  (calls : list Event)
  : (Error + list NodeExecutionData) * W * list Event :=
  match items with
  | [] => (inr returnData, w, calls)
  | p :: items' =>
      match executeItem continueOnFail p itemIndex w with
      | (Pushed out, w', evs) =>
          executeFrom continueOnFail items' (S itemIndex)
            (returnData ++ [out]) w' (calls ++ evs)
      | (Thrown e, w', evs) => (inl e, w', calls ++ evs)
      end
  end.

Definition execute (continueOnFail : bool) (items : list NodeParameters)
  (w : W) : (Error + list NodeExecutionData) * W * list Event :=
  executeFrom continueOnFail items 0 [] w [].

End Execute.

(* ===================================================================== *)
(** ** Vocabulary of the statements *)
(* ===================================================================== *)

(** [sep] matches at no position inside [a] when [a] is followed by
    [rest]. *)
Fixpoint noMatch (sep a rest : jstring) : Prop :=
  match a with
  | [] => True
  | _ :: a' => startsWith sep (a ++ rest) = false /\ noMatch sep a' rest
  end.

(** The code unit [x] does not occur in [s]. *)
Definition lacks (x : char) (s : jstring) : Prop :=
  existsb (N.eqb x) s = false.

Definition colon : char := 58%N.

(** A line feed, as [lit] has no escape for it. *)
Definition LF : jstring := [10%N].

(** An item with its two numbers as exact rationals. *)
Definition itemView (item : TranscriptItem) : jstring * option Q * option Q :=
  (text item, exactQ (start item), exactQ (duration item)).

(** The input of the cue-parsing example of the specification. *)
Definition twoCues : jstring :=
  lit "00:00:00.000 --> 00:00:02.500" ++ LF
  ++ lit "Hello <b>world</b>" ++ LF
  ++ LF
  ++ lit "00:00:02.500 --> 00:00:04.000" ++ LF
  ++ lit "Second line" ++ LF.

(** The first whitespace-delimited token of [s]. *)
Fixpoint untilSpace (s : jstring) : jstring :=
  match s with
  | [] => []
  | c :: s' => if isWhiteSpace c then [] else c :: untilSpace s'
  end.

Definition firstToken (s : jstring) : jstring := untilSpace (trimStart s).

(** A timing line with cue settings after the end timestamp, as the
    downloader writes them for automatic captions. *)
Definition settingsLine : jstring :=
  lit "00:00:01.000 --> 00:00:04.000 align:start position:0%".

(** The value of a run of decimal digits read onto [acc], most significant
    digit first. *)
Definition digitsValue (acc : Z) (ds : jstring) : Z :=
  fold_left (fun a c => (10 * a + digitVal c)%Z) ds acc.

(** What a number rounded to three decimal places can be: the Number nearest
    to [n / 1000] for an integer [n], a value of magnitude [10 ^ 21] or more
    (which [toFixed] leaves alone), or a value that is not finite. *)
Definition Rounded3 (v : number) : Prop :=
  (exists (neg : bool) (n : Z), (0 <= n)%Z /\ v = ofDecimal neg n (-3))
  \/ (isFinite v = true
      /\ SFcompare (SFabs v) (ofZ (10 ^ 21)) <> Some Lt)
  \/ isFinite v = false.

(** A line that adds nothing to the text of a cue: blank, or blank once its
    tags are deleted. *)
Definition addsNoText (x : jstring) : Prop :=
  trim x = [] \/ trim (stripTags x) = [].

(** A cue whose only text line is an empty tag pair. *)
Definition styleOnlyCue : jstring :=
  lit "00:00:01.000 --> 00:00:02.000" ++ LF ++ lit "<c></c>" ++ LF ++ LF.

(* ===================================================================== *)
(** ** Vocabulary of the further properties *)
(* ===================================================================== *)

(** The text after an identifier does not continue it: it is empty or
    starts with a code unit outside [[a-zA-Z0-9_-]]. *)
Definition endsId (rest : jstring) : Prop :=
  match rest with
  | [] => True
  | c :: _ => isIdChar c = false
  end.

(** The two URL shapes the regular expression of [extractVideoId] knows. *)
Definition watchShape : jstring := lit "youtube.com/watch?v=".
Definition shortShape : jstring := lit "youtu.be/".

(** The input carries one of the two host markers. *)
Definition hasHost (s : jstring) : bool :=
  includes (lit "youtube.com") s || includes (lit "youtu.be") s.

(** Where a selected track list comes from: the manual map under the
    variant [v], or, that map having no entry there, the automatic map. *)
Definition selectedFrom {Track : Type} (manual auto : TrackMap Track)
  (v : jstring) (r : Selection Track) (ts : list Track) : Prop :=
  (isManualSubtitle r = true /\ get manual v = Some ts)
  \/ (isManualSubtitle r = false /\ get manual v = None
      /\ get auto v = Some ts /\ ts <> []).

Definition comma : char := 44%N.

(** A tag is left in [s]: some [<] has a [>] after it. *)
Fixpoint hasTag (s : jstring) : bool :=
  match s with
  | [] => false
  | c :: s' => ((c =? 60)%N && existsb (N.eqb 62) s') || hasTag s'
  end.

(** What follows the first [>] of [r]. *)
Fixpoint afterGt (r : jstring) : jstring :=
  match r with
  | [] => []
  | d :: r' => if (d =? 62)%N then r' else afterGt r'
  end.

(** The number of timing lines among [lines]. *)
Definition timingLines (lines : list jstring) : nat :=
  length (filter (fun l => includes arrow (trim l)) lines).

(** [s] does not start with white space. *)
Definition headOk (s : jstring) : Prop :=
  match s with
  | [] => True
  | c :: _ => isWhiteSpace c = false
  end.

(** The condition of the inner loop: a line that belongs to the text of the
    open cue. *)
Definition isTextLine (x : jstring) : bool :=
  truthy (trim x) && negb (includes arrow x).

(** The lines after a cue's text: none, or first a line that is blank or
    contains the separator. *)
Definition endsCue (rest : list jstring) : Prop :=
  match rest with
  | [] => True
  | x :: _ => isTextLine x = false
  end.

(** The text lines of a cue with their tags deleted, trimmed, the empty
    ones left out. *)
Definition cleaned (xs : list jstring) : list jstring :=
  filter truthy (map (fun x => trim (stripTags x)) xs).

(** The item of the cue opened by the timing line [l] with the text [t]. *)
Definition cueItem (l t : jstring) : TranscriptItem :=
  let '(startTime, endTime) := cueTimes (trim l) in
  {| text := t;
     start := plusToFixed3 (timeToSeconds startTime);
     duration := plusToFixed3
                   (sub (timeToSeconds endTime) (timeToSeconds startTime)) |}.

Definition isExec (ev : Event) : bool :=
  match ev with Exec _ => true | _ => false end.

Definition isWrite (ev : Event) : bool :=
  match ev with WriteFile _ _ => true | _ => false end.

Definition isUnlink (ev : Event) : bool :=
  match ev with Unlink _ => true | _ => false end.

(** The number of runs of the downloader among the calls [evs]. *)
Definition execs (evs : list Event) : nat := length (filter isExec evs).

(** The number of files deleted among the calls [evs]. *)
Definition unlinks (evs : list Event) : nat := length (filter isUnlink evs).

Section ExecuteVocabulary.

Variables Track Value W : Type.
Variable env : Env Track Value W.

(** From [st] to [st'] the calls [evs] were made, and the local
    [cookieFilePath] was left alone. *)
Definition Adds (st st' : State W) (evs : list Event) : Prop :=
  log st' = log st ++ evs /\ cookieFilePath st' = cookieFilePath st.

(** The temporary cookie file of item [itemIndex] when the iteration starts
    in the world [w]. *)
Definition tempCookiePath (itemIndex : nat) (w : W) : jstring :=
  path_join env (tmpdir env)
    (lit "yt-cookies-" ++ decimalOfN (snd (Date_now env w)) ++ lit "-"
     ++ decimalOfN (N.of_nat itemIndex) ++ lit ".txt").

(** What is written to it. *)
Definition cookieFileContent (p : NodeParameters) : jstring :=
  lit "# Netscape HTTP Cookie File" ++ [10%N] ++ p_cookieString p.

End ExecuteVocabulary.

(** The calls of the [try] block once the cookies are dealt with: one run
    of the downloader for the metadata; then, if a track was selected, one
    run for the subtitles and reads of candidate files; and, only when the
    block succeeds ([ok]), the deletion of the file read last. *)
Definition ItemCalls (evs : list Event) (ok : bool) : Prop :=
  exists c1,
    (evs = [Exec c1] /\ ok = false)
    \/ (exists c2 reads,
          evs = Exec c1 :: Exec c2 :: map ReadFile reads /\ ok = false)
    \/ (exists c2 reads file,
          evs = Exec c1 :: Exec c2 :: map ReadFile (reads ++ [file])
                ++ [Unlink file]
          /\ ok = true).

(** The iteration uses a temporary cookie file. *)
Definition usesTempCookie (p : NodeParameters) : bool :=
  str_eqb (p_authMethod p) (lit "cookieString")
  && truthy (trim (p_cookieString p)).

Definition succeeded {A : Type} (r : Error + A) : bool :=
  match r with inr _ => true | inl _ => false end.

(** The iteration pushed a result (not an error record). *)
Definition isResult {Value : Type} (o : ItemOutcome Value) : bool :=
  match o with
  | Pushed out => match json out with
                  | ResultData _ => true
                  | ErrorData _ _ _ => false
                  end
  | Thrown _ _ => false
  end.

(** A world for examples: the downloader prints nothing useful, every file
    can be read and holds [content], and the metadata list the tracks
    [subs]. *)
Definition demoInfo (subs : TrackMap unit) : VideoMetadata unit unit :=
  {| title := None; info_duration := None; uploader := None;
     upload_date := None; view_count := None; description := None;
     thumbnail := None; tags := None; categories := None;
     subtitles := Some subs; automatic_captions := None |}.

Definition demoEnv (subs : TrackMap unit) (content : jstring)
  : Env unit unit unit :=
  {| execAsync := fun _ w => (w, inr []);
     JSON_parse := fun _ => inr (demoInfo subs);
     writeFile := fun _ _ w => (w, true);
     readFile := fun _ w => (w, Some content);
     unlink := fun _ w => (w, true);
     Date_now := fun w => (w, 7%N);
     tmpdir := lit "/tmp";
     path_join := fun a b => a ++ lit "/" ++ b |}.

Definition demoParams (videoId lang authMethod cookie : jstring)
  : NodeParameters :=
  {| p_videoId := videoId; p_lang := lang;
     p_preferManual := true; p_outputFormat := lit "both";
     p_includeMetadata := true; p_binaryPath := lit "ytd";
     p_authMethod := authMethod; p_cookieString := cookie;
     p_cookieFile := lit "/home/me/cookies.txt" |}.

(** The output formats under which the result carries the item list and
    the plain text. *)
Definition wantsStructured (p : NodeParameters) : bool :=
  str_eqb (p_outputFormat p) (lit "structured")
  || str_eqb (p_outputFormat p) (lit "both").

Definition wantsPlain (p : NodeParameters) : bool :=
  str_eqb (p_outputFormat p) (lit "plainText")
  || str_eqb (p_outputFormat p) (lit "both").

(** A world in which the downloader cannot be started. *)
Definition brokenEnv : Env unit unit unit :=
  {| execAsync := fun _ w => (w, inl (lit "/bin/sh: 1: yt-dlp: not found"));
     JSON_parse := fun _ => inl [];
     writeFile := fun _ _ w => (w, true);
     readFile := fun _ w => (w, None);
     unlink := fun _ w => (w, true);
     Date_now := fun w => (w, 7%N);
     tmpdir := lit "/tmp";
     path_join := fun a b => a ++ lit "/" ++ b |}.

(* ===================================================================== *)
(** ** Facts about strings *)
(* ===================================================================== *)

Unset Implicit Arguments.

Section StringFacts.

Lemma char_eqb_refl c : char_eqb c c = true.
Proof. apply N.eqb_refl. Qed.

Lemma startsWith_app p s : startsWith p (p ++ s) = true.
Proof.
  induction p as [|x p IH]; simpl; [reflexivity|].
  now rewrite char_eqb_refl, IH.
Qed.

Lemma splitGo_noMatch sep a : forall cur rest,
  noMatch sep a rest ->
  splitGo sep 0 cur (a ++ rest) = splitGo sep 0 (rev a ++ cur) rest.
Proof.
  induction a as [|c a IH]; intros cur rest H; [reflexivity|].
  destruct H as [H0 H]. simpl app at 1. simpl splitGo.
  simpl in H0. rewrite H0, (IH _ _ H). simpl. now rewrite <- app_assoc.
Qed.

Lemma splitGo_skip sep t : forall cur b,
  splitGo sep (length t) cur (t ++ b) = splitGo sep 0 cur b.
Proof. induction t as [|c t IH]; intros; simpl; auto. Qed.

(** The piece before the first occurrence. *)
Lemma splitGo_first sep a b cur :
  sep <> [] -> noMatch sep a (sep ++ b) ->
  splitGo sep 0 cur (a ++ sep ++ b)
  = rev (rev a ++ cur) :: splitGo sep 0 [] b.
Proof.
  intros Hsep H. rewrite (splitGo_noMatch _ _ _ _ H).
  destruct sep as [|x sep']; [congruence|].
  change ((x :: sep') ++ b) with (x :: (sep' ++ b)).
  cbn [splitGo]. change (x :: sep' ++ b) with ((x :: sep') ++ b).
  rewrite startsWith_app. cbn [length pred]. now rewrite splitGo_skip.
Qed.

Lemma split_first sep a b :
  sep <> [] -> noMatch sep a (sep ++ b) ->
  split sep (a ++ sep ++ b) = a :: split sep b.
Proof.
  intros Hsep H. unfold split. rewrite splitGo_first by assumption.
  now rewrite app_nil_r, rev_involutive.
Qed.

Lemma includes_noMatch sep b :
  includes sep b = false -> noMatch sep b [].
Proof.
  induction b as [|c b IH]; intro H; [exact I|].
  simpl in H. apply orb_false_iff in H. destruct H as [H1 H2].
  split; [now rewrite app_nil_r | auto].
Qed.

(** A string without the separator is a single piece. *)
Lemma split_last sep b : includes sep b = false -> split sep b = [b].
Proof.
  intro H. unfold split.
  rewrite <- (app_nil_r b) at 1.
  rewrite splitGo_noMatch by now apply includes_noMatch.
  simpl. now rewrite app_nil_r, rev_involutive.
Qed.

(** Single-unit separators. *)
Lemma lacks_noMatch x a rest : lacks x a -> noMatch [x] a rest.
Proof.
  unfold lacks. induction a as [|c a IH]; intro H; [exact I|].
  simpl in H. apply orb_false_iff in H. destruct H as [H1 H2].
  split; [|auto]. simpl. unfold char_eqb. now rewrite H1.
Qed.

Lemma lacks_includes x s : lacks x s -> includes [x] s = false.
Proof.
  unfold lacks. induction s as [|c s IH]; intro H; [reflexivity|].
  simpl in H. apply orb_false_iff in H. destruct H as [H1 H2].
  simpl. unfold char_eqb. now rewrite H1, IH.
Qed.

Lemma split_char_cons x a b :
  lacks x a -> split [x] (a ++ x :: b) = a :: split [x] b.
Proof.
  intro H. change (x :: b) with ([x] ++ b).
  apply split_first; [discriminate | now apply lacks_noMatch].
Qed.

Lemma split_char_one x s : lacks x s -> split [x] s = [s].
Proof. intro H. now apply split_last, lacks_includes. Qed.

End StringFacts.

(* ===================================================================== *)
(** ** Facts about numbers *)
(* ===================================================================== *)

Lemma add_NaN_l x : add NaN x = NaN.
Proof. reflexivity. Qed.

Lemma add_NaN_r x : add x NaN = NaN.
Proof. now destruct x. Qed.

Lemma mul_NaN_l x : mul NaN x = NaN.
Proof. reflexivity. Qed.

Lemma isNaN_eq x : isNaN x = true -> x = NaN.
Proof. destruct x; simpl; intro; (reflexivity || discriminate). Qed.

Lemma toNumber_blank s : trim s = [] -> toNumber s = S754_zero false.
Proof. intro H. unfold toNumber. now rewrite H. Qed.

(* ===================================================================== *)
(** ** Time parser *)
(* ===================================================================== *)

Lemma timeToSeconds_3 h m s :
  lacks colon h -> lacks colon m -> lacks colon s ->
  timeToSeconds (h ++ colon :: m ++ colon :: s)
  = add (add (mul (toNumber h) (ofZ 3600)) (mul (toNumber m) (ofZ 60)))
        (parseFloat s).
Proof.
  intros Hh Hm Hs. unfold timeToSeconds.
  change (lit ":") with [colon].
  rewrite (split_char_cons _ _ _ Hh), (split_char_cons _ _ _ Hm),
    (split_char_one _ _ Hs).
  reflexivity.
Qed.

Lemma timeToSeconds_2 m s :
  lacks colon m -> lacks colon s ->
  timeToSeconds (m ++ colon :: s)
  = add (mul (toNumber m) (ofZ 60)) (parseFloat s).
Proof.
  intros Hm Hs. unfold timeToSeconds.
  change (lit ":") with [colon].
  rewrite (split_char_cons _ _ _ Hm), (split_char_one _ _ Hs).
  reflexivity.
Qed.

Lemma timeToSeconds_1 s :
  lacks colon s -> timeToSeconds s = parseFloat s.
Proof.
  intros Hs. unfold timeToSeconds.
  change (lit ":") with [colon].
  now rewrite (split_char_one _ _ Hs).
Qed.

(** C3.  The time parser computes [h*3600 + m*60 + s] for three
    colon-separated fields, [m*60 + s] for two and a plain [parseFloat] for a
    single field, the hours and minutes being converted with unary [+] and
    the seconds with [parseFloat]; on the three timestamps of the
    specification it returns 3723.5, 123.25 and 5.5 exactly. *)
Theorem C3_timeToSeconds_fields (h m s : jstring) :
  lacks colon h -> lacks colon m -> lacks colon s ->
  timeToSeconds (h ++ colon :: m ++ colon :: s)
  = add (add (mul (toNumber h) (ofZ 3600)) (mul (toNumber m) (ofZ 60)))
        (parseFloat s)
  /\ timeToSeconds (m ++ colon :: s)
     = add (mul (toNumber m) (ofZ 60)) (parseFloat s)
  /\ timeToSeconds s = parseFloat s
  /\ timeToSeconds (lit "01:02:03.500") = toNumber (lit "3723.5")
  /\ exactQ (timeToSeconds (lit "01:02:03.500")) = Some (Qmake 7447 2)
  /\ timeToSeconds (lit "02:03.250") = toNumber (lit "123.25")
  /\ exactQ (timeToSeconds (lit "02:03.250")) = Some (Qmake 493 4)
  /\ timeToSeconds (lit "5.5") = toNumber (lit "5.5")
  /\ exactQ (timeToSeconds (lit "5.5")) = Some (Qmake 11 2).
Proof.
  intros Hh Hm Hs.
  split; [now apply timeToSeconds_3|].
  split; [now apply timeToSeconds_2|].
  split; [now apply timeToSeconds_1|].
  repeat split; vm_compute; reflexivity.
Qed.

Lemma C3_timeToSeconds_fields_witness :
  timeToSeconds (lit "01:02:03.500")
  = add (add (mul (toNumber (lit "01")) (ofZ 3600))
             (mul (toNumber (lit "02")) (ofZ 60)))
        (parseFloat (lit "03.500")).
Proof.
  exact (proj1 (C3_timeToSeconds_fields (lit "01") (lit "02") (lit "03.500")
                  eq_refl eq_refl eq_refl)).
Defined.

(** C4, counterexample.  The hours field ["ab"] is not numeric; unary [+]
    turns it into [NaN], its term is [NaN] and not 0, and the whole result is
    [NaN] instead of the 1.5 that a zero contribution would give. *)
Lemma C4_counterexample :
  toNumber (lit "ab") = NaN
  /\ mul (toNumber (lit "ab")) (ofZ 3600) <> S754_zero false
  /\ timeToSeconds (lit "ab:00:01.5") = NaN
  /\ timeToSeconds (lit "ab:00:01.5") <> timeToSeconds (lit "0:00:01.5").
Proof. repeat split; vm_compute; congruence. Qed.

(** C4, amended.  In a three-field timestamp an hours or minutes field that
    unary [+] cannot convert makes the result [NaN], exactly as a seconds
    field that [parseFloat] cannot read does; only an empty or
    whitespace-only hours or minutes field gives a term of 0.  The function
    is total: every string is mapped to a number. *)
Theorem C4_timeToSeconds_malformed (h m s : jstring) :
  lacks colon h -> lacks colon m -> lacks colon s ->
  (isNaN (toNumber h) = true \/ isNaN (toNumber m) = true
   \/ isNaN (parseFloat s) = true ->
   timeToSeconds (h ++ colon :: m ++ colon :: s) = NaN)
  /\ (isNaN (toNumber m) = true \/ isNaN (parseFloat s) = true ->
      timeToSeconds (m ++ colon :: s) = NaN)
  /\ (isNaN (parseFloat s) = true -> timeToSeconds s = NaN)
  /\ (trim h = [] -> mul (toNumber h) (ofZ 3600) = S754_zero false)
  /\ (trim m = [] -> mul (toNumber m) (ofZ 60) = S754_zero false)
  /\ (forall t, exists n : number, timeToSeconds t = n).
Proof.
  intros Hh Hm Hs.
  split; [|split; [|split; [|split; [|split]]]].
  - rewrite timeToSeconds_3 by assumption.
    intros [H|[H|H]]; apply isNaN_eq in H; rewrite H.
    + reflexivity.
    + rewrite mul_NaN_l, add_NaN_r. reflexivity.
    + apply add_NaN_r.
  - rewrite timeToSeconds_2 by assumption.
    intros [H|H]; apply isNaN_eq in H; rewrite H.
    + reflexivity.
    + apply add_NaN_r.
  - rewrite timeToSeconds_1 by assumption.
    intro H. now apply isNaN_eq.
  - intro H. now rewrite (toNumber_blank _ H).
  - intro H. now rewrite (toNumber_blank _ H).
  - intro t. now exists (timeToSeconds t).
Qed.

Lemma C4_timeToSeconds_malformed_witness :
  timeToSeconds (lit "ab:00:01.5") = NaN
  /\ mul (toNumber (lit " ")) (ofZ 3600) = S754_zero false.
Proof.
  pose proof (C4_timeToSeconds_malformed (lit "ab") (lit "00") (lit "01.5")
                eq_refl eq_refl eq_refl) as [H3 _].
  pose proof (C4_timeToSeconds_malformed (lit " ") (lit "00") (lit "01.5")
                eq_refl eq_refl eq_refl) as [_ [_ [_ [Hz _]]]].
  split.
  - apply H3. left. reflexivity.
  - apply Hz. reflexivity.
Defined.

(** C1.  On the two-cue example of the specification the cue parser returns
    exactly two items, "Hello world" from 0 lasting 2.5 and "Second line"
    from 2.5 lasting 1.5: the tags are gone, the text is trimmed and joined
    with single spaces, and each duration is end minus start. *)
Theorem C1_parseTranscriptContent_example :
  parseTranscriptContent twoCues
  = [ {| text := lit "Hello world";
         start := toNumber (lit "0");
         duration := toNumber (lit "2.5") |};
      {| text := lit "Second line";
         start := toNumber (lit "2.5");
         duration := toNumber (lit "1.5") |} ]
  /\ map itemView (parseTranscriptContent twoCues)
     = [ (lit "Hello world", Some (Qmake 0 1), Some (Qmake 5 2));
         (lit "Second line", Some (Qmake 5 2), Some (Qmake 3 2)) ]
  /\ stripTags (lit "Hello <b>world</b>") = lit "Hello world"
  /\ sub (timeToSeconds (lit "00:00:04.000"))
         (timeToSeconds (lit "00:00:02.500")) = toNumber (lit "1.5").
Proof. repeat split; vm_compute; reflexivity. Qed.

(* ===================================================================== *)
(** ** Identifier normaliser *)
(* ===================================================================== *)

Lemma idRun_all s : forallb isIdChar s = true -> idRun s = s.
Proof.
  induction s as [|c s IH]; simpl; intro H; [reflexivity|].
  apply andb_true_iff in H. destruct H as [Hc Hs].
  now rewrite Hc, IH.
Qed.

Lemma skipn_length_app (p s : jstring) : skipn (length p) (p ++ s) = s.
Proof. induction p; simpl; auto. Qed.

Lemma matchAfter_app alt s :
  matchAfter alt (alt ++ s)
  = match idRun s with [] => None | id => Some id end.
Proof.
  unfold matchAfter. now rewrite startsWith_app, skipn_length_app.
Qed.

Lemma matchId_skip c t :
  matchHere (c :: t) = None -> matchId (c :: t) = matchId t.
Proof. intro H. simpl matchId. now rewrite H. Qed.

Lemma matchId_here t id : matchHere t = Some id -> matchId t = Some id.
Proof. intro H. destruct t; cbn [matchId]; now rewrite H. Qed.

(** The search passes over ["https://www."] and matches the first
    alternative right after it. *)
Lemma matchId_watch s :
  idRun s = s -> s <> [] -> matchId (watchPrefix ++ s) = Some s.
Proof.
  intros Hrun Hne.
  change watchPrefix
    with (lit "https://www." ++ lit "youtube.com/watch?v=").
  rewrite <- app_assoc.
  cbn [lit list_ascii_of_string map app].
  do 12 (rewrite matchId_skip by reflexivity).
  change (N_of_ascii "y" :: _)
    with (lit "youtube.com/watch?v=" ++ s).
  apply matchId_here. unfold matchHere.
  rewrite matchAfter_app, Hrun.
  destruct s; [congruence | reflexivity].
Qed.

Lemma includes_watch s : includes (lit "youtube.com") (watchPrefix ++ s) = true.
Proof. vm_compute. reflexivity. Qed.

(** C10.  A non-empty bare identifier made of letters, digits, underscore
    and hyphen only, and containing neither host name, survives
    [normalizeVideoUrl] followed by [extractVideoId] unchanged. *)
Theorem C10_extract_normalize_roundtrip (s : jstring) :
  s <> [] ->
  includes (lit "youtube.com") s = false ->
  includes (lit "youtu.be") s = false ->
  forallb isIdChar s = true ->
  normalizeVideoUrl s = lit "https://www.youtube.com/watch?v=" ++ s
  /\ extractVideoId (normalizeVideoUrl s) = s.
Proof.
  intros Hne H1 H2 Hid.
  assert (Hn : normalizeVideoUrl s = watchPrefix ++ s).
  { unfold normalizeVideoUrl. now rewrite H1, H2. }
  split; [exact Hn|].
  rewrite Hn. unfold extractVideoId.
  rewrite includes_watch. cbn [orb].
  rewrite matchId_watch; auto using idRun_all.
Qed.

Lemma C10_extract_normalize_roundtrip_witness :
  extractVideoId (normalizeVideoUrl (lit "dQw4w9WgXcQ")) = lit "dQw4w9WgXcQ".
Proof.
  apply (C10_extract_normalize_roundtrip (lit "dQw4w9WgXcQ")).
  - discriminate.
  - reflexivity.
  - reflexivity.
  - reflexivity.
Defined.

(* ===================================================================== *)
(** ** Language matcher *)
(* ===================================================================== *)

Section Matcher.

Variable Track : Type.
Implicit Types manual auto : TrackMap Track.

Lemma langVariants_order lang :
  langVariants lang
  = [lang; lang ++ lit "_US"; lang ++ lit "-US"; lang ++ lit ".US"].
Proof. reflexivity. Qed.

(** On a well-formed manual map the selection of one variant in the
    either-map case is the one the specification describes. *)
Lemma either_step manual auto v :
  TrackMapOk manual ->
  inEither manual auto v = true ->
  {| selectedSubtitle := orElse (get manual v) (get auto v);
     isManualSubtitle := isDefined (get manual v) |}
  = realise manual auto (Some (v, hasEntry manual v)).
Proof.
  intros Hok Hin. unfold inEither, hasEntry in *. specialize (Hok v).
  unfold realise.
  destruct (get manual v) as [[|t ts]|]; simpl in *;
    congruence || reflexivity.
Qed.

Lemma fallbackPass_spec manual auto vs :
  TrackMapOk manual ->
  fallbackPass manual auto vs
  = option_map (fun r => realise manual auto (Some r))
      (specPass2 manual auto vs).
Proof.
  intro Hok. unfold specPass2.
  induction vs as [|v vs IH]; [reflexivity|].
  cbn [fallbackPass find].
  fold (hasEntry manual v) (hasEntry auto v) (inEither manual auto v).
  destruct (inEither manual auto v) eqn:E; [|exact IH].
  cbn [option_map]. f_equal. now apply either_step.
Qed.

Lemma preferredPass_spec manual auto preferManual vs :
  TrackMapOk manual ->
  preferredPass manual auto preferManual vs
  = option_map (fun r => realise manual auto (Some r))
      (specPass1 manual auto preferManual vs).
Proof.
  intro Hok. unfold specPass1.
  induction vs as [|v vs IH]; [now destruct preferManual|].
  cbn [preferredPass find].
  fold (hasEntry manual v) (hasEntry auto v) (inEither manual auto v).
  destruct preferManual; cbn [andb negb] in *.
  - destruct (hasEntry manual v) eqn:E; [|exact IH].
    reflexivity.
  - destruct (inEither manual auto v) eqn:E; [|exact IH].
    cbn [option_map]. f_equal. now apply either_step.
Qed.

Lemma findBestSubtitle_spec manual auto lang preferManual :
  TrackMapOk manual ->
  findBestSubtitle manual auto lang preferManual
  = realise manual auto (selectTrack manual auto lang preferManual).
Proof.
  intro Hok. unfold findBestSubtitle, selectTrack.
  rewrite preferredPass_spec, fallbackPass_spec by assumption.
  rewrite langVariants_order.
  destruct (specPass1 _ _ _ _) as [r|]; [reflexivity|].
  destruct (specPass2 _ _ _) as [r|]; reflexivity.
Qed.

(** The first loop with [preferManual = false], at the first variant that
    has a non-empty entry in either map. *)
Lemma preferredPass_reaches manual auto vs : forall k v,
  nth_error vs k = Some v ->
  (forall u, In u (firstn k vs) -> inEither manual auto u = false) ->
  inEither manual auto v = true ->
  preferredPass manual auto false vs
  = Some {| selectedSubtitle := orElse (get manual v) (get auto v);
            isManualSubtitle := isDefined (get manual v) |}.
Proof.
  induction vs as [|x vs IH]; intros [|k] v Hnth Hpre Hv;
    try discriminate.
  - injection Hnth as ->. cbn [preferredPass andb negb].
    unfold inEither, hasEntry in Hv. now rewrite Hv.
  - cbn [preferredPass andb negb].
    assert (Hx : inEither manual auto x = false)
      by (apply Hpre; now left).
    unfold inEither, hasEntry in Hx. rewrite Hx.
    apply (IH k v Hnth); [|assumption].
    intros u Hu. apply Hpre. now right.
Qed.

End Matcher.



(** C6.  For a variant under which both maps have a non-empty entry,
    selection with [preferManual = false] picks the manual track and reports
    it as manual: the first loop does so as soon as it stands at that
    variant, hence [findBestSubtitle] does when the variant is the requested
    language itself, and more generally when no earlier variant has an entry
    in either map.  So it is for manual and automatic tracks both under
    ["en"]. *)
Theorem C6_manual_wins_without_preference (Track : Type)
  (manual auto : TrackMap Track) (v : jstring) (m a : list Track) :
  get manual v = Some m -> m <> [] ->
  get auto v = Some a -> a <> [] ->
  (forall rest,
     preferredPass manual auto false (v :: rest)
     = Some {| selectedSubtitle := Some m; isManualSubtitle := true |})
  /\ findBestSubtitle manual auto v false
     = {| selectedSubtitle := Some m; isManualSubtitle := true |}
  /\ (forall lang k,
        nth_error (langVariants lang) k = Some v ->
        (forall u, In u (firstn k (langVariants lang)) ->
                   inEither manual auto u = false) ->
        findBestSubtitle manual auto lang false
        = {| selectedSubtitle := Some m; isManualSubtitle := true |})
  /\ (forall (t : Track) ts (t' : Track) ts',
        findBestSubtitle [(lit "en", t :: ts)] [(lit "en", t' :: ts')]
          (lit "en") false
        = {| selectedSubtitle := Some (t :: ts); isManualSubtitle := true |}).
Proof.
  intros Hm Hmne Ha Hane.
  assert (Hv : inEither manual auto v = true).
  { unfold inEither, hasEntry. rewrite Hm.
    destruct m; [congruence | reflexivity]. }
  assert (Hreach : forall vs k,
             nth_error vs k = Some v ->
             (forall u, In u (firstn k vs) -> inEither manual auto u = false) ->
             preferredPass manual auto false vs
             = Some {| selectedSubtitle := Some m; isManualSubtitle := true |}).
  { intros vs k Hnth Hpre.
    rewrite (preferredPass_reaches Track manual auto vs k v Hnth Hpre Hv).
    now rewrite Hm. }
  split; [|split; [|split]].
  - intro rest. apply (Hreach (v :: rest) 0); [reflexivity|].
    intros u [].
  - unfold findBestSubtitle.
    rewrite (Hreach (langVariants v) 0); [reflexivity | reflexivity |].
    intros u [].
  - intros lang k Hnth Hpre. unfold findBestSubtitle.
    now rewrite (Hreach (langVariants lang) k Hnth Hpre).
  - reflexivity.
Qed.

Lemma C6_manual_wins_without_preference_witness :
  findBestSubtitle [(lit "en-US", [1%nat])]
    [(lit "en-US", [2%nat]); (lit "en.US", [3%nat])] (lit "en") false
  = {| selectedSubtitle := Some [1%nat]; isManualSubtitle := true |}.
Proof.
  refine (proj1 (proj2 (proj2 (C6_manual_wins_without_preference nat
            [(lit "en-US", [1%nat])]
            [(lit "en-US", [2%nat]); (lit "en.US", [3%nat])]
            (lit "en-US") [1%nat] [2%nat] eq_refl _ eq_refl _)))
            (lit "en") 2 eq_refl _).
  - discriminate.
  - discriminate.
  - intros u [<-|[<-|[]]]; reflexivity.
Defined.

(* ===================================================================== *)
(** ** The per-item operation *)
(* ===================================================================== *)

Section Operation.

Variables Track Value W : Type.
Variable env : Env Track Value W.

Lemma no_variant_no_selection (subs autos : TrackMap Track) vs :
  (forall v, In v vs -> inEither subs autos v = false) ->
  forall preferManual,
    preferredPass subs autos preferManual vs = None
    /\ fallbackPass subs autos vs = None.
Proof.
  intros H preferManual. induction vs as [|v vs IH]; [now split|].
  assert (Hv : inEither subs autos v = false) by (apply H; now left).
  unfold inEither, hasEntry in Hv.
  apply orb_false_iff in Hv. destruct Hv as [Hs Ha].
  cbn [preferredPass fallbackPass]. rewrite Hs, Ha.
  rewrite !andb_false_r. cbn [orb andb].
  apply IH. intros u Hu. apply H. now right.
Qed.

Lemma findBestSubtitle_none (subs autos : TrackMap Track) lang :
  (forall v, In v (langVariants lang) -> inEither subs autos v = false) ->
  forall preferManual,
    findBestSubtitle subs autos lang preferManual
    = {| selectedSubtitle := None; isManualSubtitle := false |}.
Proof.
  intros H preferManual. unfold findBestSubtitle.
  destruct (no_variant_no_selection subs autos _ H preferManual) as [-> ->].
  reflexivity.
Qed.

Lemma getAvailableLanguages_listing (subs autos : TrackMap Track) :
  getAvailableLanguages subs autos
  = match keys subs ++ keys autos with
    | [] => lit "none"
    | ks => join (lit ", ") ks
    end.
Proof.
  unfold getAvailableLanguages.
  now destruct (keys subs ++ keys autos).
Qed.

(** An error whose message has neither marker leaves the [catch] block as
    it came in: recorded when the node continues on failure, rethrown
    otherwise. *)
Lemma catchBlock_passes continueOnFail (p : NodeParameters) itemIndex e :
  includes (lit "yt-dlp") (message e) = false ->
  includes (lit "command not found") (message e) = false ->
  @catchBlock Value continueOnFail p itemIndex e
  = if continueOnFail
    then Pushed {| json := ErrorData Value (message e) (p_videoId p);
                   pairedItem := itemIndex |}
    else Thrown Value e.
Proof. intros H1 H2. unfold catchBlock. now rewrite H1, H2. Qed.

End Operation.

(** C9.  An item whose video reference is empty or whitespace-only fails at
    once with the invalid-input error: the [try] block throws it without
    touching the state, the [catch] block passes it on (recorded when the
    node continues on failure, rethrown otherwise), and the iteration makes
    no outside call at all, so neither collaborator is reached. *)
Theorem C9_blank_video_reference (Track Value W : Type)
  (env : Env Track Value W) (continueOnFail : bool)
  (p : NodeParameters) (itemIndex : nat) (w : W) :
  trim (p_videoId p) = [] ->
  let invalid :=
    NodeOperationError (lit "The video ID/URL parameter is empty.")
      (Some itemIndex) in
  (forall st, tryBody env p itemIndex st = (st, inl invalid))
  /\ executeItem env continueOnFail p itemIndex w
     = (if continueOnFail
        then Pushed {| json := ErrorData Value (message invalid) (p_videoId p);
                       pairedItem := itemIndex |}
        else Thrown Value invalid,
        w, []).
Proof.
  intros Hblank invalid.
  assert (Hbody : forall st, tryBody env p itemIndex st = (st, inl invalid)).
  { intro st. unfold tryBody. rewrite Hblank. reflexivity. }
  split; [exact Hbody|].
  unfold executeItem. rewrite Hbody.
  rewrite catchBlock_passes by reflexivity.
  reflexivity.
Qed.

Lemma C9_blank_video_reference_witness :
  let env : Env unit unit unit :=
    {| execAsync := fun _ w => (w, inl []);
       JSON_parse := fun _ => inl [];
       writeFile := fun _ _ w => (w, true);
       readFile := fun _ w => (w, None);
       unlink := fun _ w => (w, true);
       Date_now := fun w => (w, 0%N);
       tmpdir := lit "/tmp";
       path_join := fun a b => a ++ lit "/" ++ b |} in
  let p := {| p_videoId := lit "   "; p_lang := lit "en";
              p_preferManual := true; p_outputFormat := lit "structured";
              p_includeMetadata := false; p_binaryPath := lit "yt-dlp";
              p_authMethod := lit "none"; p_cookieString := [];
              p_cookieFile := [] |} in
  snd (executeItem env false p 0 tt) = [].
Proof.
  intros env p.
  pose proof (C9_blank_video_reference unit unit unit env false p 0 tt
                eq_refl) as [_ H].
  rewrite H. reflexivity.
Defined.



(* ===================================================================== *)
(** ** Cue parser: the timing line *)
(* ===================================================================== *)

Lemma startsWith_app_long p : forall u v,
  length p <= length u -> startsWith p (u ++ v) = startsWith p u.
Proof.
  induction p as [|x p IH]; intros u v H; [reflexivity|].
  destruct u as [|y u]; simpl in H; [lia|].
  simpl. rewrite IH by lia. reflexivity.
Qed.

Lemma includes_here p s : startsWith p s = true -> includes p s = true.
Proof. intro H. destruct s; simpl in *; now rewrite H. Qed.

Lemma includes_app_r p a : forall s,
  includes p s = true -> includes p (a ++ s) = true.
Proof.
  induction a as [|c a IH]; intros s H; [exact H|].
  simpl. rewrite (IH _ H). apply orb_true_r.
Qed.

Lemma includes_middle p a b : includes p (a ++ p ++ b) = true.
Proof. apply includes_app_r, includes_here, startsWith_app. Qed.

(** No separator starts inside the start side when the start side followed
    by [" -->"] contains none. *)
Lemma arrow_noMatch a b :
  includes arrow (a ++ lit " -->") = false -> noMatch arrow a (arrow ++ b).
Proof.
  induction a as [|c a IH]; intro H; [exact I|].
  change ((c :: a) ++ lit " -->") with (c :: (a ++ lit " -->")) in H.
  cbn [includes] in H. apply orb_false_iff in H. destruct H as [H1 H2].
  split; [|auto].
  change (arrow ++ b) with (lit " -->" ++ (32%N :: b)).
  rewrite app_assoc, startsWith_app_long; [exact H1|].
  rewrite length_app. simpl. lia.
Qed.

Lemma cueTimes_whole a b :
  includes arrow (a ++ lit " -->") = false ->
  includes arrow b = false ->
  cueTimes (a ++ arrow ++ b) = (a, b).
Proof.
  intros Ha Hb. unfold cueTimes.
  rewrite split_first; [|discriminate | now apply arrow_noMatch].
  rewrite (split_last _ _ Hb). reflexivity.
Qed.




(* ===================================================================== *)
(** ** Three-decimal numerals *)
(* ===================================================================== *)

Ltac ncases H :=
  unfold isDigit in H; apply andb_true_iff in H;
  let H1 := fresh in let H2 := fresh in
  destruct H as [H1 H2]; apply N.leb_le in H1; apply N.leb_le in H2;
  repeat match goal with
    | |- context [N.leb ?a ?b] => destruct (N.leb_spec a b); try lia
    | |- context [N.eqb ?a ?b] => destruct (N.eqb_spec a b); try lia
    end.

Lemma digit_not_space c : isDigit c = true -> isWhiteSpace c = false.
Proof. intro H. unfold isWhiteSpace. ncases H; try reflexivity. Qed.

Lemma digitsValue_acc ds : forall a,
  digitsValue a ds
  = (a * 10 ^ Z.of_nat (length ds) + digitsValue 0 ds)%Z.
Proof.
  unfold digitsValue.
  induction ds as [|d ds IH]; intro a; cbn [fold_left length].
  - change (Z.of_nat 0) with 0%Z. lia.
  - rewrite IH, (IH (10 * 0 + digitVal d)%Z).
    rewrite Nat2Z.inj_succ, Z.pow_succ_r by lia. lia.
Qed.

Lemma digitsValue_app a ds es :
  digitsValue a (ds ++ es) = digitsValue (digitsValue a ds) es.
Proof. apply fold_left_app. Qed.

Lemma readDigits_run ds : forall acc cnt rest,
  forallb isDigit ds = true ->
  match rest with c :: _ => isDigit c = false | [] => True end ->
  readDigits acc cnt (ds ++ rest)
  = (digitsValue acc ds, (cnt + length ds)%nat, rest).
Proof.
  induction ds as [|d ds IH]; intros acc cnt rest Hds Hrest.
  - cbn [app length digitsValue fold_left]. rewrite Nat.add_0_r.
    destruct rest as [|c rest]; [reflexivity|].
    cbn [readDigits]. now rewrite Hrest.
  - cbn [forallb] in Hds. apply andb_true_iff in Hds.
    destruct Hds as [Hd Hds].
    cbn [app readDigits]. rewrite Hd, (IH _ _ _ Hds Hrest).
    cbn [length]. now rewrite Nat.add_succ_r.
Qed.

(** The decimal numeral of [n]: digits only, and they read back as [n]. *)
Lemma digitsFuel_spec f : forall n acc,
  (n < 10 ^ N.of_nat f)%N ->
  forallb isDigit acc = true ->
  forallb isDigit (digitsFuel f n acc) = true
  /\ digitsValue 0 (digitsFuel f n acc)
     = (Z.of_N n * 10 ^ Z.of_nat (length acc) + digitsValue 0 acc)%Z.
Proof.
  induction f as [|f IH]; intros n acc Hn Hacc.
  - cbn [digitsFuel]. split; [exact Hacc|].
    change (10 ^ N.of_nat 0)%N with 1%N in Hn.
    assert (n = 0%N) by lia. subst n. lia.
  - cbn [digitsFuel].
    pose proof (N.mod_lt n 10 ltac:(lia)) as Hr.
    pose proof (N.div_mod n 10 ltac:(lia)) as Hdm.
    remember (n mod 10)%N as r eqn:Er. remember (n / 10)%N as q eqn:Eq.
    clear Er Eq.
    assert (Hd : isDigit (48 + r)%N = true).
    { unfold isDigit. apply andb_true_iff. split; apply N.leb_le; lia. }
    assert (Hacc' : forallb isDigit ((48 + r)%N :: acc) = true)
      by (cbn [forallb]; now rewrite Hd).
    assert (Hval : digitsValue 0 ((48 + r)%N :: acc)
                   = (Z.of_N r * 10 ^ Z.of_nat (length acc)
                      + digitsValue 0 acc)%Z).
    { unfold digitsValue at 1. cbn [fold_left].
      fold (digitsValue (10 * 0 + digitVal (48 + r)%N)%Z acc).
      rewrite digitsValue_acc. unfold digitVal.
      replace (10 * 0 + (Z.of_N (48 + r) - 48))%Z with (Z.of_N r) by lia.
      reflexivity. }
    destruct (N.ltb_spec n 10) as [Hlt|Hge].
    + split; [exact Hacc'|]. rewrite Hval.
      replace r with n by lia. reflexivity.
    + assert (Hq : (q < 10 ^ N.of_nat f)%N).
      { rewrite Nat2N.inj_succ, N.pow_succ_r' in Hn. lia. }
      destruct (IH q _ Hq Hacc') as [H1 H2].
      split; [exact H1|]. rewrite H2, Hval.
      cbn [length]. rewrite Nat2Z.inj_succ, Z.pow_succ_r by lia.
      subst n. rewrite N2Z.inj_add, N2Z.inj_mul. change (Z.of_N 10) with 10%Z.
      ring.
Qed.

Lemma decimalOfN_spec n :
  forallb isDigit (decimalOfN n) = true
  /\ digitsValue 0 (decimalOfN n) = Z.of_N n.
Proof.
  unfold decimalOfN.
  assert (Hn : (n < 10 ^ N.of_nat (S (N.to_nat (N.log2 n))))%N).
  { rewrite Nat2N.inj_succ, N2Nat.id.
    destruct n as [|p]; [reflexivity|].
    pose proof (N.log2_spec (N.pos p) ltac:(lia)) as [_ H].
    eapply N.lt_le_trans; [exact H|].
    apply N.pow_le_mono_l. lia. }
  destruct (digitsFuel_spec _ n [] Hn eq_refl) as [H1 H2].
  split; [exact H1|]. rewrite H2. cbn. lia.
Qed.

Lemma readDigits_all ds acc cnt :
  forallb isDigit ds = true ->
  readDigits acc cnt ds = (digitsValue acc ds, (cnt + length ds)%nat, []).
Proof.
  intro H. rewrite <- (app_nil_r ds) at 1.
  now apply readDigits_run.
Qed.

Lemma zeros_digits k : forallb isDigit (zeros k) = true.
Proof. induction k; [reflexivity | exact IHk]. Qed.

Lemma digitsValue_zeros k ds :
  digitsValue 0 (zeros k ++ ds) = digitsValue 0 ds.
Proof. induction k; [reflexivity | exact IHk]. Qed.

(** The text [toFixed(3)] produces for the scaled integer [n]: integer
    digits, a point and exactly three fraction digits, which together read
    back as [n]. *)
Lemma fixedDigits3_shape n :
  (0 <= n)%Z ->
  exists I F,
    fixedDigits3 n = I ++ 46%N :: F
    /\ I <> [] /\ length F = 3
    /\ forallb isDigit I = true /\ forallb isDigit F = true
    /\ digitsValue 0 (I ++ F) = n.
Proof.
  intro Hn. unfold fixedDigits3.
  destruct (decimalOfN_spec (Z.to_N n)) as [Hd Hv].
  set (m := decimalOfN (Z.to_N n)) in *.
  set (m' := zeros (4 - length m) ++ m).
  assert (Hlen : 4 <= length m').
  { unfold m', zeros. rewrite length_app, repeat_length. lia. }
  assert (Hdig : forallb isDigit m' = true).
  { unfold m'. now rewrite forallb_app, zeros_digits, Hd. }
  rewrite <- (firstn_skipn (length m' - 3) m') in Hdig.
  rewrite forallb_app in Hdig. apply andb_true_iff in Hdig.
  destruct Hdig as [HI HF].
  exists (firstn (length m' - 3) m'), (skipn (length m' - 3) m').
  split; [reflexivity|].
  split.
  { intro E. apply (f_equal (@length _)) in E.
    rewrite length_firstn in E. simpl in E. lia. }
  split; [rewrite length_skipn; lia|].
  split; [exact HI|]. split; [exact HF|].
  rewrite firstn_skipn. unfold m'. rewrite digitsValue_zeros, Hv.
  now rewrite Z2N.id.
Qed.

Lemma trimEnd_last s d :
  isWhiteSpace d = false -> trimEnd (s ++ [d]) = s ++ [d].
Proof.
  intro H. unfold trimEnd. rewrite rev_app_distr. cbn [rev app trimStart].
  rewrite H. cbn [rev]. now rewrite rev_involutive.
Qed.

Lemma trim_id c s d :
  isWhiteSpace c = false -> isWhiteSpace d = false ->
  trim (c :: s ++ [d]) = c :: s ++ [d].
Proof.
  intros Hc Hd. unfold trim. cbn [trimStart]. rewrite Hc.
  change (c :: s ++ [d]) with ((c :: s) ++ [d]).
  now apply trimEnd_last.
Qed.

Lemma readUnsigned_numeral i I F :
  forallb isDigit (i :: I) = true -> forallb isDigit F = true ->
  readUnsigned ((i :: I) ++ 46%N :: F)
  = Some (LitDecimal (digitsValue 0 ((i :: I) ++ F))
            (- Z.of_nat (length F)), []).
Proof.
  intros HI HF. unfold readUnsigned.
  assert (Hi : isDigit i = true).
  { cbn [forallb] in HI. now apply andb_true_iff in HI. }
  assert (Hinf : startsWith (lit "Infinity") ((i :: I) ++ 46%N :: F) = false).
  { cbn [app lit list_ascii_of_string map startsWith].
    replace (char_eqb (N_of_ascii "I") i) with false; [reflexivity|].
    unfold char_eqb. cbn [N_of_ascii N_of_digits]. ncases Hi; reflexivity. }
  rewrite Hinf.
  rewrite (readDigits_run (i :: I) 0 0 (46%N :: F) HI eq_refl).
  cbn [N.eqb Pos.eqb]. rewrite (readDigits_all F _ 0 HF).
  cbn [length Nat.add readExponent].
  rewrite <- digitsValue_app. reflexivity.
Qed.

(** A signed numeral with a fraction part converts to the Number nearest to
    the decimal it spells. *)
Lemma toNumber_numeral neg I F :
  I <> [] -> F <> [] ->
  forallb isDigit I = true -> forallb isDigit F = true ->
  toNumber ((if neg : bool then [45%N] else []) ++ I ++ 46%N :: F)
  = ofDecimal neg (digitsValue 0 (I ++ F)) (- Z.of_nat (length F)).
Proof.
  intros HIne HFne HI HF.
  destruct I as [|i I]; [congruence|].
  destruct (exists_last HFne) as [F0 [f EF]].
  assert (Hi : isDigit i = true).
  { cbn [forallb] in HI. now apply andb_true_iff in HI. }
  assert (Hf : isDigit f = true).
  { rewrite EF, forallb_app in HF. cbn [forallb] in HF.
    apply andb_true_iff in HF. destruct HF as [_ HF].
    now apply andb_true_iff in HF. }
  pose proof (readUnsigned_numeral i I F HI HF) as Hread.
  unfold toNumber. destruct neg; cbv iota; cbn [app].
  - match goal with |- context [trim ?t] => assert (Ht : trim t = t) end.
    { rewrite EF.
      replace (i :: I ++ 46%N :: F0 ++ [f])
        with ((i :: I ++ 46%N :: F0) ++ [f])
        by (cbn [app]; now rewrite <- app_assoc).
      apply trim_id; [reflexivity | now apply digit_not_space]. }
    rewrite Ht. cbn [nonDecimal N.eqb Pos.eqb].
    unfold readSigned. cbn [N.eqb Pos.eqb].
    cbn [app] in Hread. rewrite Hread. reflexivity.
  - match goal with |- context [trim ?t] => assert (Ht : trim t = t) end.
    { rewrite EF.
      replace (I ++ 46%N :: F0 ++ [f]) with ((I ++ 46%N :: F0) ++ [f])
        by now rewrite <- app_assoc.
      apply trim_id; now apply digit_not_space. }
    rewrite Ht.
    assert (Hnd : nonDecimal ((i :: I) ++ 46%N :: F) = None).
    { destruct I as [|j I].
      - cbn [app nonDecimal]. destruct (i =? 48)%N; reflexivity.
      - assert (Hj : isDigit j = true).
        { cbn [forallb] in HI. apply andb_true_iff in HI.
          destruct HI as [_ HI]. now apply andb_true_iff in HI. }
        cbn [app nonDecimal]. destruct (i =? 48)%N; [|reflexivity].
        ncases Hj; reflexivity. }
    assert (Hsg : readSigned ((i :: I) ++ 46%N :: F)
                  = match readUnsigned ((i :: I) ++ 46%N :: F) with
                    | Some (l, r) => Some (false, l, r)
                    | None => None
                    end).
    { unfold readSigned. cbn [app]. ncases Hi; reflexivity. }
    cbn [app] in *. rewrite Hnd, Hsg, Hread. reflexivity.
Qed.

Lemma scaled3_nonneg m e : (0 <= scaled3 m e)%Z.
Proof.
  unfold scaled3. destruct (0 <=? e)%Z eqn:E0.
  - pose proof (Z.pow_nonneg 2 e ltac:(lia)). nia.
  - apply Z.leb_gt in E0.
    pose proof (Z.pow_pos_nonneg 2 (- e) ltac:(lia) ltac:(lia)).
    apply Z.div_pos; lia.
Qed.

(** [+x.toFixed(3)] is rounded to three decimal places. *)
Lemma plusToFixed3_rounded x : Rounded3 (plusToFixed3 x).
Proof.
  destruct x as [s| s | |s m e].
  - left. exists false, 0%Z. split; [lia|]. vm_compute. reflexivity.
  - right. right. reflexivity.
  - right. right. reflexivity.
  - unfold plusToFixed3, toFixed3.
    destruct (SFcompare (SFabs (S754_finite s m e)) (ofZ (10 ^ 21)))
      as [[| |]|] eqn:E;
      try (right; left; split; [reflexivity | rewrite E; congruence]).
    left.
    destruct (fixedDigits3_shape _ (scaled3_nonneg m e))
      as (I & F & Hshape & HI & HF & HdI & HdF & Hv).
    assert (HFne : F <> []) by (intro E0; now rewrite E0 in HF).
    exists s, (scaled3 m e). split; [apply scaled3_nonneg|].
    change (toNumber ((if s then [45%N] else [])
                      ++ fixedDigits3 (scaled3 m e))
            = ofDecimal s (scaled3 m e) (-3)).
    rewrite Hshape.
    transitivity (ofDecimal s (digitsValue 0 (I ++ F))
                    (- Z.of_nat (length F))).
    + exact (toNumber_numeral s I F HI HFne HdI HdF).
    + now rewrite Hv, HF.
Qed.

(* ===================================================================== *)
(** ** Cue parser: the emitted items *)
(* ===================================================================== *)

Lemma cueLoop_nil k s d t : cueLoop k s d t [] = pushCue s d t.
Proof. reflexivity. Qed.

Lemma cueLoop_cons k s d t x ls :
  cueLoop k s d t (x :: ls)
  = if truthy (trim x) && negb (includes arrow x)
    then cueLoop k s d
           (if truthy (trim (stripTags x))
            then t ++ trim (stripTags x) ++ lit " " else t) ls
    else pushCue s d t ++ k (x :: ls).
Proof. reflexivity. Qed.

Lemma parseLines_cons l rest :
  parseLines (l :: rest)
  = if includes arrow (trim l)
    then cueLoop parseLines
           (timeToSeconds (fst (cueTimes (trim l))))
           (sub (timeToSeconds (snd (cueTimes (trim l))))
                (timeToSeconds (fst (cueTimes (trim l))))) [] rest
    else parseLines rest.
Proof.
  cbn [parseLines]. destruct (includes arrow (trim l)); [|reflexivity].
  now destruct (cueTimes (trim l)).
Qed.

Section Items.

Variable P : TranscriptItem -> Prop.
Hypothesis pushed : forall s d t item, In item (pushCue s d t) -> P item.

(** Whatever holds of every pushed item holds of every item of the
    transcript. *)
Lemma loops_all ls :
  Forall P (parseLines ls)
  /\ forall s d t, Forall P (cueLoop parseLines s d t ls).
Proof.
  induction ls as [|x ls [IH1 IH2]].
  - split; [constructor|]. intros s d t. rewrite cueLoop_nil.
    apply Forall_forall. apply pushed.
  - assert (H1 : Forall P (parseLines (x :: ls))).
    { rewrite parseLines_cons.
      destruct (includes arrow (trim x)); [apply IH2 | exact IH1]. }
    split; [exact H1|]. intros s d t. rewrite cueLoop_cons.
    destruct (truthy (trim x) && negb (includes arrow x)); [apply IH2|].
    apply Forall_app. split; [|exact H1].
    apply Forall_forall. apply pushed.
Qed.

End Items.

Lemma pushCue_item s d t item :
  In item (pushCue s d t) ->
  text item <> [] /\ Rounded3 (start item) /\ Rounded3 (duration item).
Proof.
  unfold pushCue. destruct (trim t) as [|c t'] eqn:E; cbn [truthy].
  - intros [].
  - intros [<-|[]]. cbn [text start duration].
    split; [discriminate|]. split; apply plusToFixed3_rounded.
Qed.

Lemma no_text_no_item ls :
  Forall addsNoText ls ->
  parseLines ls = []
  /\ forall s d, cueLoop parseLines s d [] ls = [].
Proof.
  induction 1 as [|x ls Hx _ [IH1 IH2]].
  - split; reflexivity.
  - assert (H1 : parseLines (x :: ls) = []).
    { rewrite parseLines_cons.
      destruct (includes arrow (trim x)); [apply IH2 | exact IH1]. }
    split; [exact H1|]. intros s d. rewrite cueLoop_cons, H1.
    destruct Hx as [Hx|Hx]; rewrite Hx; cbn [truthy andb].
    + reflexivity.
    + destruct (truthy (trim x) && negb (includes arrow x));
        [apply IH2 | reflexivity].
Qed.



(* ===================================================================== *)
(** ** Further properties: identifier normaliser *)
(* ===================================================================== *)

(** X1.  [normalizeVideoUrl] always returns a string that carries a host
    marker, and normalising twice is normalising once. *)
Theorem normalizeVideoUrl_idempotent (x : jstring) :
  hasHost (normalizeVideoUrl x) = true
  /\ normalizeVideoUrl (normalizeVideoUrl x) = normalizeVideoUrl x.
Proof.
  assert (H : hasHost (normalizeVideoUrl x) = true).
  { unfold normalizeVideoUrl.
    destruct (includes (lit "youtube.com") x || includes (lit "youtu.be") x)
      eqn:E; [exact E|].
    unfold hasHost. now rewrite includes_watch. }
  split; [exact H|].
  unfold hasHost in H. unfold normalizeVideoUrl at 1. now rewrite H.
Qed.

Lemma idRun_app id rest :
  forallb isIdChar id = true -> endsId rest -> idRun (id ++ rest) = id.
Proof.
  intros Hid Hrest. induction id as [|c id IH].
  - destruct rest as [|r rest]; [reflexivity|].
    cbn [app idRun]. simpl in Hrest. now rewrite Hrest.
  - cbn [forallb] in Hid. apply andb_true_iff in Hid.
    destruct Hid as [Hc Hid]. cbn [app idRun]. now rewrite Hc, IH.
Qed.

Lemma idRun_idChars s : forallb isIdChar (idRun s) = true.
Proof.
  induction s as [|c s IH]; [reflexivity|].
  cbn [idRun]. destruct (isIdChar c) eqn:E; [|reflexivity].
  cbn [forallb]. now rewrite E.
Qed.

Lemma matchHere_watch id rest :
  id <> [] -> forallb isIdChar id = true -> endsId rest ->
  matchHere (watchShape ++ id ++ rest) = Some id.
Proof.
  intros Hne Hid Hrest. unfold matchHere, watchShape.
  rewrite matchAfter_app, idRun_app by assumption.
  destruct id; [congruence | reflexivity].
Qed.

Lemma matchHere_short id rest :
  id <> [] -> forallb isIdChar id = true -> endsId rest ->
  matchHere (shortShape ++ id ++ rest) = Some id.
Proof.
  intros Hne Hid Hrest. unfold matchHere.
  replace (matchAfter (lit "youtube.com/watch?v=") (shortShape ++ id ++ rest))
    with (@None jstring) by reflexivity.
  unfold shortShape. rewrite matchAfter_app, idRun_app by assumption.
  destruct id; [congruence | reflexivity].
Qed.

(** X2.  From a watch URL and from a short URL [extractVideoId] returns the
    identifier alone, whatever follows it ([&t=30s], [?si=...], nothing). *)
Theorem extractVideoId_of_urls (id rest : jstring) :
  id <> [] -> forallb isIdChar id = true -> endsId rest ->
  extractVideoId (lit "https://www.youtube.com/watch?v=" ++ id ++ rest) = id
  /\ extractVideoId (lit "https://youtu.be/" ++ id ++ rest) = id.
Proof.
  intros Hne Hid Hrest. split.
  - unfold extractVideoId.
    change (lit "https://www.youtube.com/watch?v=") with watchPrefix.
    rewrite includes_watch. cbn [orb].
    change watchPrefix with (lit "https://www." ++ watchShape).
    rewrite <- app_assoc.
    cbn [lit list_ascii_of_string map app].
    do 12 (rewrite matchId_skip by reflexivity).
    change (N_of_ascii "y" :: _) with (watchShape ++ id ++ rest).
    now rewrite (matchId_here _ id (matchHere_watch id rest Hne Hid Hrest)).
  - unfold extractVideoId.
    replace (includes (lit "youtube.com") (lit "https://youtu.be/" ++ id ++ rest)
             || includes (lit "youtu.be") (lit "https://youtu.be/" ++ id ++ rest))
      with true.
    2:{ symmetry. apply orb_true_iff. right.
        change (lit "https://youtu.be/")
          with (lit "https://" ++ lit "youtu.be" ++ lit "/").
        rewrite <- !app_assoc. apply includes_middle. }
    change (lit "https://youtu.be/") with (lit "https://" ++ shortShape).
    rewrite <- app_assoc.
    cbn [lit list_ascii_of_string map app].
    do 8 (rewrite matchId_skip by reflexivity).
    change (N_of_ascii "y" :: _) with (shortShape ++ id ++ rest).
    now rewrite (matchId_here _ id (matchHere_short id rest Hne Hid Hrest)).
Qed.

Lemma extractVideoId_of_urls_witness :
  extractVideoId (lit "https://youtu.be/dQw4w9WgXcQ?t=42") = lit "dQw4w9WgXcQ".
Proof.
  exact (proj2 (extractVideoId_of_urls (lit "dQw4w9WgXcQ") (lit "?t=42")
                  ltac:(discriminate) eq_refl eq_refl)).
Defined.

Lemma startsWith_In p : forall s c,
  startsWith p s = true -> In c p -> In c s.
Proof.
  induction p as [|x p IH]; intros s c H Hin; [destruct Hin|].
  destruct s as [|y s]; [discriminate|].
  cbn [startsWith] in H. apply andb_true_iff in H. destruct H as [Hxy H].
  apply N.eqb_eq in Hxy. subst y.
  destruct Hin as [<-|Hin]; [now left | right; eauto].
Qed.

Lemma includes_In p s c : includes p s = true -> In c p -> In c s.
Proof.
  intros H Hin. induction s as [|y s IH].
  - cbn in H. rewrite orb_false_r in H. exact (startsWith_In _ _ _ H Hin).
  - cbn [includes] in H. apply orb_true_iff in H. destruct H as [H|H].
    + exact (startsWith_In _ _ _ H Hin).
    + right. auto.
Qed.

(** An identifier has no dot, hence no host marker. *)
Lemma idChars_no_host s : forallb isIdChar s = true -> hasHost s = false.
Proof.
  intro H. unfold hasHost.
  assert (Hdot : ~ In 46%N s).
  { intro Hin. rewrite forallb_forall in H. now specialize (H _ Hin). }
  apply orb_false_iff. split.
  - destruct (includes (lit "youtube.com") s) eqn:E; [|reflexivity].
    exfalso. apply Hdot. apply (includes_In _ _ _ E). cbn. tauto.
  - destruct (includes (lit "youtu.be") s) eqn:E; [|reflexivity].
    exfalso. apply Hdot. apply (includes_In _ _ _ E). cbn. tauto.
Qed.

Lemma matchAfter_idChars alt s id :
  matchAfter alt s = Some id -> id <> [] /\ forallb isIdChar id = true.
Proof.
  unfold matchAfter. destruct (startsWith alt s); [|discriminate].
  pose proof (idRun_idChars (skipn (length alt) s)) as H.
  destruct (idRun (skipn (length alt) s)) as [|c r]; [discriminate|].
  intros [= <-]. split; [discriminate | exact H].
Qed.

Lemma matchId_idChars s id :
  matchId s = Some id -> id <> [] /\ forallb isIdChar id = true.
Proof.
  induction s as [|c s IH]; cbn [matchId]; unfold matchHere.
  - destruct (matchAfter (lit "youtube.com/watch?v=") []) eqn:E1.
    { intros [= <-]. eapply matchAfter_idChars; eauto. }
    destruct (matchAfter (lit "youtu.be/") []) eqn:E2; [|discriminate].
    intros [= <-]. eapply matchAfter_idChars; eauto.
  - destruct (matchAfter (lit "youtube.com/watch?v=") (c :: s)) eqn:E1.
    { intros [= <-]. eapply matchAfter_idChars; eauto. }
    destruct (matchAfter (lit "youtu.be/") (c :: s)) eqn:E2; [|exact IH].
    intros [= <-]. eapply matchAfter_idChars; eauto.
Qed.

(** X3.  What [extractVideoId] returns is either its input or a non-empty
    run of identifier characters, and extracting again changes nothing. *)
Theorem extractVideoId_idempotent (x : jstring) :
  (extractVideoId x = x
   \/ (extractVideoId x <> []
       /\ forallb isIdChar (extractVideoId x) = true))
  /\ extractVideoId (extractVideoId x) = extractVideoId x.
Proof.
  assert (E : forall y, extractVideoId y
                        = if hasHost y
                          then match matchId y with
                               | Some id => id
                               | None => y
                               end
                          else y) by reflexivity.
  destruct (hasHost x) eqn:Hx.
  - destruct (matchId x) as [id|] eqn:Hm.
    + assert (Ex : extractVideoId x = id) by now rewrite E, Hx, Hm.
      destruct (matchId_idChars _ _ Hm) as [Hne Hid].
      rewrite Ex. split; [right; now split|].
      now rewrite E, (idChars_no_host _ Hid).
    + assert (Ex : extractVideoId x = x) by now rewrite E, Hx, Hm.
      rewrite Ex. split; [now left | exact Ex].
  - assert (Ex : extractVideoId x = x) by now rewrite E, Hx.
    rewrite Ex. split; [now left | exact Ex].
Qed.

Lemma matchId_none s :
  includes watchShape s = false -> includes shortShape s = false ->
  matchId s = None.
Proof.
  induction s as [|c s IH]; intros H1 H2.
  - reflexivity.
  - cbn [includes] in H1, H2.
    apply orb_false_iff in H1. apply orb_false_iff in H2.
    destruct H1 as [H1 H1']. destruct H2 as [H2 H2'].
    cbn [matchId]. unfold matchHere, matchAfter.
    fold watchShape shortShape. rewrite H1, H2. auto.
Qed.

(** X4.  A URL that shows neither [youtube.com/watch?v=] nor [youtu.be/]
    (an embed or shorts address, a watch address whose first parameter is
    not [v]) is returned whole by [extractVideoId]: it is not reduced to an
    identifier. *)
Theorem extractVideoId_unknown_shape (x : jstring) :
  includes watchShape x = false -> includes shortShape x = false ->
  extractVideoId x = x.
Proof.
  intros H1 H2. unfold extractVideoId.
  rewrite (matchId_none _ H1 H2).
  now destruct (_ || _).
Qed.

Lemma extractVideoId_unknown_shape_witness :
  extractVideoId (lit "https://www.youtube.com/embed/dQw4w9WgXcQ")
  = lit "https://www.youtube.com/embed/dQw4w9WgXcQ".
Proof.
  exact (extractVideoId_unknown_shape
           (lit "https://www.youtube.com/embed/dQw4w9WgXcQ") eq_refl eq_refl).
Defined.

(* ===================================================================== *)
(** ** Further properties: language matcher *)
(* ===================================================================== *)

Section MatcherMore.

Variable Track : Type.
Implicit Types manual auto : TrackMap Track.

Lemma either_selected manual auto v :
  inEither manual auto v = true ->
  exists ts,
    orElse (get manual v) (get auto v) = Some ts
    /\ selectedFrom manual auto v
         {| selectedSubtitle := orElse (get manual v) (get auto v);
            isManualSubtitle := isDefined (get manual v) |} ts.
Proof.
  unfold inEither, hasEntry, selectedFrom. intro H.
  destruct (get manual v) as [m|] eqn:Em; cbn in *.
  - exists m. split; [reflexivity|]. left. now split.
  - destruct (get auto v) as [[|t a]|] eqn:Ea; try discriminate.
    exists (t :: a). split; [reflexivity|]. right.
    repeat split; congruence.
Qed.

Lemma fallbackPass_some manual auto vs : forall r,
  fallbackPass manual auto vs = Some r ->
  exists v ts, In v vs /\ selectedSubtitle r = Some ts
               /\ selectedFrom manual auto v r ts.
Proof.
  induction vs as [|v vs IH]; intro r; [discriminate|].
  cbn [fallbackPass].
  fold (hasEntry manual v) (hasEntry auto v) (inEither manual auto v).
  destruct (inEither manual auto v) eqn:E.
  - intros [= <-]. destruct (either_selected _ _ _ E) as (ts & H1 & H2).
    exists v, ts. split; [now left | split; [exact H1 | exact H2]].
  - intro H. destruct (IH _ H) as (u & ts & Hin & H1 & H2).
    exists u, ts. split; [now right | split; [exact H1 | exact H2]].
Qed.

Lemma preferredPass_some manual auto preferManual vs : forall r,
  preferredPass manual auto preferManual vs = Some r ->
  exists v ts, In v vs /\ selectedSubtitle r = Some ts
               /\ selectedFrom manual auto v r ts.
Proof.
  induction vs as [|v vs IH]; intro r; [discriminate|].
  cbn [preferredPass].
  fold (hasEntry manual v) (hasEntry auto v) (inEither manual auto v).
  destruct (preferManual && hasEntry manual v) eqn:E1.
  - intros [= <-]. apply andb_true_iff in E1. destruct E1 as [_ E1].
    unfold hasEntry in E1.
    destruct (get manual v) as [[|t m]|] eqn:Em; try discriminate.
    exists v, (t :: m). split; [now left | split; [reflexivity|]].
    left. now split.
  - destruct (negb preferManual && inEither manual auto v) eqn:E2.
    + intros [= <-]. apply andb_true_iff in E2. destruct E2 as [_ E2].
      destruct (either_selected _ _ _ E2) as (ts & H1 & H2).
      exists v, ts. split; [now left | split; [exact H1 | exact H2]].
    + intro H. destruct (IH _ H) as (u & ts & Hin & H1 & H2).
      exists u, ts. split; [now right | split; [exact H1 | exact H2]].
Qed.

Lemma fallbackPass_none manual auto vs :
  fallbackPass manual auto vs = None ->
  forall v, In v vs -> inEither manual auto v = false.
Proof.
  induction vs as [|x vs IH]; intros H v Hin; [destruct Hin|].
  cbn [fallbackPass] in H.
  fold (hasEntry manual x) (hasEntry auto x) (inEither manual auto x) in H.
  destruct (inEither manual auto x) eqn:E; [discriminate|].
  destruct Hin as [<-|Hin]; [exact E | auto].
Qed.

Lemma preferredPass_false manual auto vs :
  preferredPass manual auto false vs = fallbackPass manual auto vs.
Proof.
  induction vs as [|v vs IH]; [reflexivity|].
  cbn [preferredPass fallbackPass andb negb]. now rewrite IH.
Qed.

Lemma preferredPass_true_auto manual auto auto' vs :
  preferredPass manual auto true vs = preferredPass manual auto' true vs.
Proof.
  induction vs as [|v vs IH]; [reflexivity|].
  cbn [preferredPass andb negb]. now rewrite IH.
Qed.

Lemma preferredPass_true_none manual auto vs :
  (forall v, In v vs -> hasEntry manual v = false) ->
  preferredPass manual auto true vs = None.
Proof.
  induction vs as [|v vs IH]; intro H; [reflexivity|].
  cbn [preferredPass andb negb].
  fold (hasEntry manual v). rewrite (H v (or_introl eq_refl)).
  apply IH. intros u Hu. apply H. now right.
Qed.

Lemma preferredPass_true_some manual auto vs :
  (exists v, In v vs /\ hasEntry manual v = true) ->
  exists r, preferredPass manual auto true vs = Some r
            /\ isManualSubtitle r = true.
Proof.
  induction vs as [|x vs IH]; intros (v & Hin & Hv); [destruct Hin|].
  cbn [preferredPass andb negb]. fold (hasEntry manual x).
  destruct (hasEntry manual x) eqn:E.
  - eexists. split; reflexivity.
  - apply IH. destruct Hin as [<-|Hin]; [congruence|].
    exists v. now split.
Qed.

End MatcherMore.


(** X6.  With [preferManual] set, as soon as one variant has a non-empty
    manual entry the result is a manual track and the automatic map plays no
    part: the answer is the one obtained with no automatic captions at
    all. *)
Theorem findBestSubtitle_manual_first (Track : Type)
  (manual auto : TrackMap Track) (lang : jstring) :
  (exists v, In v (langVariants lang) /\ hasEntry manual v = true) ->
  findBestSubtitle manual auto lang true = findBestSubtitle manual [] lang true
  /\ isManualSubtitle (findBestSubtitle manual auto lang true) = true.
Proof.
  intro H. unfold findBestSubtitle.
  rewrite (preferredPass_true_auto Track manual auto [] (langVariants lang)).
  destruct (preferredPass_true_some Track manual [] _ H) as (r & -> & Hr).
  now split.
Qed.

Lemma findBestSubtitle_manual_first_witness :
  findBestSubtitle [(lit "en-US", [1%nat])] [(lit "en", [2%nat])] (lit "en") true
  = findBestSubtitle [(lit "en-US", [1%nat])] [] (lit "en") true.
Proof.
  refine (proj1 (findBestSubtitle_manual_first nat
            [(lit "en-US", [1%nat])] [(lit "en", [2%nat])] (lit "en") _)).
  exists (lit "en-US"). split; [cbn; tauto | reflexivity].
Defined.



(* ===================================================================== *)
(** ** Further properties: the listing of languages *)
(* ===================================================================== *)

Lemma lacks_noMatch_head x sep a rest :
  lacks x a -> noMatch (x :: sep) a rest.
Proof.
  unfold lacks. induction a as [|c a IH]; intro H; [exact I|].
  simpl in H. apply orb_false_iff in H. destruct H as [H1 H2].
  split; [|auto]. simpl. unfold char_eqb. now rewrite H1.
Qed.

Lemma lacks_includes_head x sep s :
  lacks x s -> includes (x :: sep) s = false.
Proof.
  unfold lacks. induction s as [|c s IH]; intro H; [reflexivity|].
  simpl in H. apply orb_false_iff in H. destruct H as [H1 H2].
  cbn [includes startsWith]. unfold char_eqb. now rewrite H1, IH.
Qed.

Lemma split_join x sep parts :
  parts <> [] -> Forall (lacks x) parts ->
  split (x :: sep) (join (x :: sep) parts) = parts.
Proof.
  intros Hne Hall. induction Hall as [|p parts Hp Hall IH]; [congruence|].
  destruct parts as [|q parts].
  - cbn [join]. now apply split_last, lacks_includes_head.
  - change (join (x :: sep) (p :: q :: parts))
      with (p ++ (x :: sep) ++ join (x :: sep) (q :: parts)).
    rewrite split_first;
      [| discriminate | now apply lacks_noMatch_head].
    rewrite IH by discriminate. reflexivity.
Qed.

(** X8.  The listing of [getAvailableLanguages] can be read back: when
    there is at least one key and no key contains a comma, splitting the
    listing on [", "] gives the keys of the manual map followed by the keys
    of the automatic map; without any key the listing is the word "none",
    which no splitting tells apart from a language called "none". *)
Theorem getAvailableLanguages_split (Track : Type)
  (subs autos : TrackMap Track) :
  (keys subs ++ keys autos <> [] ->
   Forall (lacks comma) (keys subs ++ keys autos) ->
   split (lit ", ") (getAvailableLanguages subs autos)
   = keys subs ++ keys autos)
  /\ (keys subs ++ keys autos = [] ->
      getAvailableLanguages subs autos = lit "none")
  /\ (forall ts : list Track,
        getAvailableLanguages [(lit "none", ts)] []
        = getAvailableLanguages (@nil (jstring * list Track)) []).
Proof.
  split; [|split].
  - intros Hne Hall. rewrite getAvailableLanguages_listing.
    destruct (keys subs ++ keys autos) as [|k ks] eqn:E; [congruence|].
    rewrite <- E in *. now apply (split_join comma [32%N]).
  - intro E. rewrite getAvailableLanguages_listing. now rewrite E.
  - reflexivity.
Qed.

Lemma getAvailableLanguages_split_witness :
  split (lit ", ")
    (getAvailableLanguages [(lit "en", [tt])] [(lit "en", [tt]); (lit "fr", [])])
  = [lit "en"; lit "en"; lit "fr"].
Proof.
  refine (proj1 (getAvailableLanguages_split unit
            [(lit "en", [tt])] [(lit "en", [tt]); (lit "fr", [])]) _ _).
  - discriminate.
  - repeat constructor.
Defined.

(* ===================================================================== *)
(** ** Further properties: cue parser *)
(* ===================================================================== *)

Lemma stripTags_cons c s :
  stripTags (c :: s)
  = if (c =? 60)%N && existsb (N.eqb 62) s
    then stripTags (afterGt s)
    else c :: stripTags s.
Proof.
  cbn [stripTags]. destruct ((c =? 60)%N && existsb (N.eqb 62) s);
    [|reflexivity].
  clear c. induction s as [|d s IH]; [reflexivity|].
  cbn [afterGt]. destruct (d =? 62)%N; [reflexivity | exact IH].
Qed.

Lemma afterGt_length r : length (afterGt r) <= length r.
Proof.
  induction r as [|d r IH]; [reflexivity|].
  cbn [afterGt length]. destruct (d =? 62)%N; lia.
Qed.

Lemma afterGt_In c r : In c (afterGt r) -> In c r.
Proof.
  induction r as [|d r IH]; [auto|].
  cbn [afterGt]. destruct (d =? 62)%N; intro H; right; auto.
Qed.

Lemma stripTags_In_bounded n : forall s c,
  length s <= n -> In c (stripTags s) -> In c s.
Proof.
  induction n as [|n IH]; intros [|d s] c Hlen Hin;
    try (cbn in Hlen; lia); try exact Hin.
  rewrite stripTags_cons in Hin. cbn [length] in Hlen.
  destruct ((d =? 60)%N && existsb (N.eqb 62) s).
  - right. apply afterGt_In. apply IH; [|exact Hin].
    pose proof (afterGt_length s). lia.
  - destruct Hin as [<-|Hin]; [now left|].
    right. apply IH; [lia | exact Hin].
Qed.

(** Stripping tags only deletes code units. *)
Lemma stripTags_In s c : In c (stripTags s) -> In c s.
Proof. apply (stripTags_In_bounded (length s)). lia. Qed.

Lemma stripTags_noTag_bounded n : forall s,
  length s <= n -> hasTag (stripTags s) = false.
Proof.
  induction n as [|n IH]; intros [|d s] Hlen;
    try (cbn in Hlen; lia); try reflexivity.
  rewrite stripTags_cons. cbn [length] in Hlen.
  destruct ((d =? 60)%N && existsb (N.eqb 62) s) eqn:E.
  - apply IH. pose proof (afterGt_length s). lia.
  - cbn [hasTag]. rewrite (IH s) by lia. rewrite orb_false_r.
    destruct (d =? 60)%N; [|reflexivity]. cbn [andb] in *.
    destruct (existsb (N.eqb 62) (stripTags s)) eqn:E'; [|reflexivity].
    apply existsb_exists in E'. destruct E' as (g & Hin & Hg).
    apply stripTags_In in Hin.
    assert (existsb (N.eqb 62) s = true)
      by (apply existsb_exists; eauto).
    congruence.
Qed.

Lemma stripTags_untagged s : hasTag s = false -> stripTags s = s.
Proof.
  induction s as [|c s IH]; intro H; [reflexivity|].
  cbn [hasTag] in H. apply orb_false_iff in H. destruct H as [H1 H2].
  rewrite stripTags_cons, H1, IH by assumption. reflexivity.
Qed.

(** X9.  Deleting the tags of a line leaves no tag behind (no [<] with a
    [>] after it), leaves a line without tags as it is, and is therefore
    idempotent; an unclosed [<] is kept. *)
Theorem stripTags_idempotent (s : jstring) :
  hasTag (stripTags s) = false
  /\ (hasTag s = false -> stripTags s = s)
  /\ stripTags (stripTags s) = stripTags s.
Proof.
  assert (H : hasTag (stripTags s) = false)
    by (apply (stripTags_noTag_bounded (length s)); lia).
  split; [exact H|]. split; [apply stripTags_untagged|].
  now apply stripTags_untagged.
Qed.

Lemma stripTags_idempotent_witness :
  stripTags (lit "a < b") = lit "a < b".
Proof.
  exact (proj1 (proj2 (stripTags_idempotent (lit "a < b"))) eq_refl).
Defined.

Lemma pushCue_length s d t : length (pushCue s d t) <= 1.
Proof. unfold pushCue. destruct (truthy (trim t)); cbn; lia. Qed.

Lemma timingLines_cons l ls :
  timingLines (l :: ls)
  = (if includes arrow (trim l) then 1 else 0) + timingLines ls.
Proof.
  unfold timingLines. cbn [filter].
  now destruct (includes arrow (trim l)).
Qed.

Lemma items_bounded ls :
  length (parseLines ls) <= timingLines ls
  /\ forall s d t,
       length (cueLoop parseLines s d t ls) <= 1 + timingLines ls.
Proof.
  induction ls as [|x ls [IH1 IH2]].
  - split; [cbn; lia|]. intros. rewrite cueLoop_nil.
    pose proof (pushCue_length s d t). cbn. lia.
  - assert (H1 : length (parseLines (x :: ls)) <= timingLines (x :: ls)).
    { rewrite parseLines_cons, timingLines_cons.
      destruct (includes arrow (trim x)); [apply IH2 | exact IH1]. }
    split; [exact H1|]. intros s d t. rewrite cueLoop_cons.
    destruct (truthy (trim x) && negb (includes arrow x)).
    + rewrite timingLines_cons. specialize (IH2 s d
        (if truthy (trim (stripTags x))
         then t ++ trim (stripTags x) ++ lit " " else t)). lia.
    + rewrite length_app. pose proof (pushCue_length s d t). lia.
Qed.

(** A blank line closes the cue before it. *)
Lemma blank_line_splits b ls2 ls1 :
  trim b = [] ->
  parseLines (ls1 ++ b :: ls2) = parseLines ls1 ++ parseLines ls2
  /\ forall s d t,
       cueLoop parseLines s d t (ls1 ++ b :: ls2)
       = cueLoop parseLines s d t ls1 ++ parseLines ls2.
Proof.
  intro Hb.
  assert (H0 : parseLines (b :: ls2) = parseLines ls2).
  { rewrite parseLines_cons, Hb. reflexivity. }
  induction ls1 as [|x ls1 [IH1 IH2]].
  - split; [exact H0|]. intros s d t. cbn [app].
    rewrite cueLoop_cons, Hb, H0. reflexivity.
  - cbn [app].
    assert (H1 : parseLines (x :: ls1 ++ b :: ls2)
                 = parseLines (x :: ls1) ++ parseLines ls2).
    { rewrite !parseLines_cons.
      destruct (includes arrow (trim x)); [apply IH2 | exact IH1]. }
    split; [exact H1|]. intros s d t. rewrite !cueLoop_cons.
    destruct (truthy (trim x) && negb (includes arrow x)); [apply IH2|].
    now rewrite H1, app_assoc.
Qed.

Lemma splitGo_char_app x a : forall cur b,
  splitGo [x] 0 cur (a ++ x :: b) = splitGo [x] 0 cur a ++ split [x] b.
Proof.
  induction a as [|c a IH]; intros cur b.
  - cbn [app splitGo startsWith]. rewrite char_eqb_refl. reflexivity.
  - cbn [app splitGo startsWith length pred].
    destruct (char_eqb x c); cbn [andb].
    + rewrite IH. reflexivity.
    + apply IH.
Qed.

Lemma split_char_app x a b :
  split [x] (a ++ x :: b) = split [x] a ++ split [x] b.
Proof. apply splitGo_char_app. Qed.

(** X10.  Two subtitle texts put together with a blank line between them
    parse to the items of the first followed by the items of the second: a
    blank line ends the cue before it and nothing carries over it. *)
Theorem parseTranscriptContent_blank_line (c1 b c2 : jstring) :
  trim b = [] -> lacks 10%N b ->
  parseTranscriptContent (c1 ++ LF ++ b ++ LF ++ c2)
  = parseTranscriptContent c1 ++ parseTranscriptContent c2.
Proof.
  intros Hb Hlf. unfold parseTranscriptContent, LF.
  cbn [app]. rewrite split_char_app, split_char_app.
  rewrite (split_char_one _ _ Hlf). cbn [app].
  now apply blank_line_splits.
Qed.

Lemma parseTranscriptContent_blank_line_witness :
  parseTranscriptContent (twoCues ++ LF ++ lit "  " ++ LF ++ twoCues)
  = parseTranscriptContent twoCues ++ parseTranscriptContent twoCues.
Proof.
  exact (parseTranscriptContent_blank_line twoCues (lit "  ") twoCues
           eq_refl eq_refl).
Defined.

Lemma startsWith_app_l p : forall m b,
  startsWith p m = true -> startsWith p (m ++ b) = true.
Proof.
  induction p as [|x p IH]; intros m b H; [reflexivity|].
  destruct m as [|y m]; [discriminate|].
  cbn [startsWith app] in *. apply andb_true_iff in H.
  destruct H as [H1 H2]. now rewrite H1, IH.
Qed.

Lemma includes_app_l p m b :
  includes p m = true -> includes p (m ++ b) = true.
Proof.
  induction m as [|y m IH]; intro H.
  - cbn in H. rewrite orb_false_r in H.
    apply includes_here. now apply (startsWith_app_l p [] b).
  - cbn [includes] in H. apply orb_true_iff in H.
    change ((y :: m) ++ b) with (y :: (m ++ b)). cbn [includes].
    destruct H as [H|H].
    + change (y :: m ++ b) with ((y :: m) ++ b).
      now rewrite (startsWith_app_l _ _ b H).
    + rewrite (IH H). apply orb_true_r.
Qed.

Lemma includes_infix p a m b :
  includes p m = true -> includes p (a ++ m ++ b) = true.
Proof. intro H. now apply includes_app_r, includes_app_l. Qed.

Lemma trimStart_suffix x : exists w, x = w ++ trimStart x.
Proof.
  induction x as [|c x [w IH]]; [now exists []|].
  cbn [trimStart]. destruct (isWhiteSpace c).
  - exists (c :: w). cbn [app]. now rewrite <- IH.
  - now exists [].
Qed.

Lemma trimEnd_prefix y : exists w, y = trimEnd y ++ w.
Proof.
  unfold trimEnd. destruct (trimStart_suffix (rev y)) as [w H].
  exists (rev w). rewrite <- rev_app_distr, <- H. now rewrite rev_involutive.
Qed.

(** [trim x] is a stretch of [x]. *)
Lemma trim_infix x : exists a b, x = a ++ trim x ++ b.
Proof.
  unfold trim. destruct (trimStart_suffix x) as [a Ha].
  destruct (trimEnd_prefix (trimStart x)) as [b Hb].
  exists a, b. now rewrite <- Hb.
Qed.

Lemma includes_trim p x : includes p (trim x) = true -> includes p x = true.
Proof.
  intro H. destruct (trim_infix x) as (a & b & E). rewrite E.
  now apply includes_infix.
Qed.

Lemma splitGo_infix x s : forall cur piece,
  In piece (splitGo [x] 0 cur s) ->
  exists a b, rev cur ++ s = a ++ piece ++ b.
Proof.
  induction s as [|c s IH]; intros cur piece Hin.
  - destruct Hin as [<-|[]]. exists [], []. now rewrite app_nil_r.
  - cbn [splitGo startsWith length pred] in Hin.
    destruct (char_eqb x c); cbn [andb] in Hin.
    + destruct Hin as [<-|Hin].
      * now exists [], (c :: s).
      * destruct (IH _ _ Hin) as (a & b & E). cbn [rev app] in E.
        exists (rev cur ++ c :: a), b. rewrite E.
        now rewrite <- app_assoc.
    + destruct (IH _ _ Hin) as (a & b & E).
      exists a, b. rewrite <- E. cbn [rev]. now rewrite <- app_assoc.
Qed.

Lemma split_infix x s piece :
  In piece (split [x] s) -> exists a b, s = a ++ piece ++ b.
Proof. intro H. exact (splitGo_infix x s [] piece H). Qed.

Lemma filter_none {A} (f : A -> bool) ls :
  (forall l, In l ls -> f l = false) -> filter f ls = [].
Proof.
  induction ls as [|x ls IH]; intro H; [reflexivity|].
  cbn [filter]. rewrite (H x (or_introl eq_refl)).
  apply IH. intros l Hl. apply H. now right.
Qed.

Lemma no_arrow_no_timing content :
  includes arrow content = false ->
  timingLines (split [10%N] content) = 0.
Proof.
  intro H. unfold timingLines.
  rewrite filter_none; [reflexivity|].
  intros l Hin. destruct (includes arrow (trim l)) eqn:E; [|reflexivity].
  apply includes_trim in E.
  destruct (split_infix _ _ _ Hin) as (a & b & Es).
  rewrite Es, (includes_infix _ a l b E) in H. discriminate.
Qed.

(** X11.  The transcript never has more items than the text has timing
    lines, and a text in which [" --> "] does not occur yields the empty
    transcript. *)
Theorem parseTranscriptContent_bounded (content : jstring) :
  length (parseTranscriptContent content)
  <= timingLines (split [10%N] content)
  /\ (includes arrow content = false -> parseTranscriptContent content = []).
Proof.
  assert (H : length (parseTranscriptContent content)
              <= timingLines (split [10%N] content))
    by apply items_bounded.
  split; [exact H|]. intro Hno.
  rewrite (no_arrow_no_timing _ Hno) in H.
  destruct (parseTranscriptContent content); [reflexivity | cbn in H; lia].
Qed.

Lemma parseTranscriptContent_bounded_witness :
  parseTranscriptContent (lit "WEBVTT" ++ LF ++ lit "Kind: captions") = [].
Proof.
  exact (proj2 (parseTranscriptContent_bounded
                  (lit "WEBVTT" ++ LF ++ lit "Kind: captions")) eq_refl).
Defined.

Lemma trimStart_head s : headOk (trimStart s).
Proof.
  induction s as [|c s IH]; [exact I|].
  cbn [trimStart]. destruct (isWhiteSpace c) eqn:E; [exact IH | exact E].
Qed.

Lemma trimStart_fixed s : headOk s -> trimStart s = s.
Proof. destruct s as [|c s]; cbn; [auto | now intros ->]. Qed.

Lemma trimEnd_idem s : trimEnd (trimEnd s) = trimEnd s.
Proof.
  unfold trimEnd. rewrite rev_involutive.
  now rewrite (trimStart_fixed _ (trimStart_head _)).
Qed.

Lemma trimEnd_head u : headOk u -> headOk (trimEnd u).
Proof.
  intro H. destruct (trimEnd_prefix u) as [w E].
  destruct (trimEnd u) as [|c l]; [exact I|].
  rewrite E in H. exact H.
Qed.

Lemma trim_idem t : trim (trim t) = trim t.
Proof.
  unfold trim.
  rewrite (trimStart_fixed _ (trimEnd_head _ (trimStart_head t))).
  apply trimEnd_idem.
Qed.

Lemma lacks_iff x s : lacks x s <-> ~ In x s.
Proof.
  unfold lacks. split.
  - intros H Hin.
    assert (existsb (N.eqb x) s = true)
      by (apply existsb_exists; exists x; split; [exact Hin | apply N.eqb_refl]).
    congruence.
  - intro H. destruct (existsb (N.eqb x) s) eqn:E; [|reflexivity].
    apply existsb_exists in E. destruct E as (y & Hin & Hy).
    apply N.eqb_eq in Hy. subst y. contradiction.
Qed.

Lemma trim_In c x : In c (trim x) -> In c x.
Proof.
  intro H. destruct (trim_infix x) as (a & b & E). rewrite E.
  apply in_or_app. right. apply in_or_app. now left.
Qed.

Lemma splitGo_lacks x s : forall cur,
  lacks x cur -> Forall (lacks x) (splitGo [x] 0 cur s).
Proof.
  induction s as [|c s IH]; intros cur Hcur.
  - constructor; [|constructor]. apply lacks_iff. rewrite <- in_rev.
    now apply lacks_iff.
  - cbn [splitGo startsWith length pred].
    destruct (char_eqb x c) eqn:E; cbn [andb].
    + constructor; [|now apply IH].
      apply lacks_iff. rewrite <- in_rev. now apply lacks_iff.
    + apply IH. unfold lacks in *. cbn [existsb].
      unfold char_eqb in E. now rewrite E, Hcur.
Qed.

(** No piece of a split on one code unit contains that unit. *)
Lemma split_lacks x s : Forall (lacks x) (split [x] s).
Proof. now apply splitGo_lacks. Qed.

Lemma text_one_line ls :
  Forall (lacks 10%N) ls ->
  Forall (fun item => lacks 10%N (text item)) (parseLines ls)
  /\ forall s d t,
       lacks 10%N t ->
       Forall (fun item => lacks 10%N (text item))
         (cueLoop parseLines s d t ls).
Proof.
  assert (Hpush : forall s d t,
             lacks 10%N t ->
             Forall (fun item => lacks 10%N (text item)) (pushCue s d t)).
  { intros s d t Ht. unfold pushCue.
    destruct (truthy (trim t)); constructor; [|constructor].
    cbn [text]. apply lacks_iff. intro Hin. apply trim_In in Hin.
    now apply lacks_iff in Ht. }
  induction 1 as [|x ls Hx _ [IH1 IH2]].
  - split; [constructor|]. intros. rewrite cueLoop_nil. now apply Hpush.
  - assert (H1 : Forall (fun item => lacks 10%N (text item))
                   (parseLines (x :: ls))).
    { rewrite parseLines_cons.
      destruct (includes arrow (trim x)); [now apply IH2 | exact IH1]. }
    split; [exact H1|]. intros s d t Ht. rewrite cueLoop_cons.
    destruct (truthy (trim x) && negb (includes arrow x)).
    + apply IH2. destruct (truthy (trim (stripTags x))); [|exact Ht].
      apply lacks_iff. intro Hin.
      apply in_app_or in Hin. destruct Hin as [Hin|Hin].
      { now apply lacks_iff in Ht. }
      apply in_app_or in Hin. destruct Hin as [Hin|Hin].
      { apply trim_In, stripTags_In in Hin. now apply lacks_iff in Hx. }
      cbn in Hin. destruct Hin as [Hin|[]]. discriminate.
    + apply Forall_app. split; [now apply Hpush | exact H1].
Qed.

(** X12.  The text of every emitted item is trimmed (trimming it again
    changes nothing, so it neither starts nor ends with white space) and
    holds no line feed: the lines of a cue are joined into one line. *)
Theorem item_text_trimmed_one_line (content : jstring)
  (item : TranscriptItem) :
  In item (parseTranscriptContent content) ->
  trim (text item) = text item /\ lacks 10%N (text item).
Proof.
  intro Hin. split.
  - assert (Hp : forall s d t it, In it (pushCue s d t) ->
                                  trim (text it) = text it).
    { intros s d t it. unfold pushCue.
      destruct (truthy (trim t)); [|intros []].
      intros [<-|[]]. cbn [text]. apply trim_idem. }
    destruct (loops_all _ Hp (split [10%N] content)) as [H _].
    rewrite Forall_forall in H. exact (H item Hin).
  - destruct (text_one_line _ (split_lacks 10%N content)) as [H _].
    rewrite Forall_forall in H. exact (H item Hin).
Qed.

Lemma item_text_trimmed_one_line_witness :
  trim (lit "Hello world") = lit "Hello world"
  /\ lacks 10%N (lit "Hello world").
Proof.
  apply (item_text_trimmed_one_line twoCues
           {| text := lit "Hello world";
              start := toNumber (lit "0");
              duration := toNumber (lit "2.5") |}).
  now left.
Defined.

Lemma cueLoop_text k s d rest xs : forall t,
  Forall (fun x => isTextLine x = true) xs ->
  cueLoop k s d t (xs ++ rest)
  = cueLoop k s d
      (t ++ concat (map (fun c => c ++ lit " ") (cleaned xs))) rest.
Proof.
  induction xs as [|x xs IH]; intros t H.
  - cbn. now rewrite app_nil_r.
  - inversion H as [|? ? Hx Hxs]; subst.
    cbn [app]. rewrite cueLoop_cons. unfold isTextLine in Hx. rewrite Hx.
    rewrite (IH _ Hxs). unfold cleaned. cbn [map filter].
    destruct (truthy (trim (stripTags x))); [|reflexivity].
    cbn [map concat]. now rewrite <- !app_assoc.
Qed.

Lemma cueLoop_end s d t rest :
  endsCue rest ->
  cueLoop parseLines s d t rest = pushCue s d t ++ parseLines rest.
Proof.
  destruct rest as [|x rest]; intro H.
  - rewrite cueLoop_nil. now rewrite app_nil_r.
  - rewrite cueLoop_cons. unfold endsCue, isTextLine in H. now rewrite H.
Qed.

Lemma concat_spaced cs :
  cs <> [] ->
  concat (map (fun c => c ++ lit " ") cs) = join (lit " ") cs ++ lit " ".
Proof.
  induction cs as [|c cs IH]; [congruence|]. intros _.
  destruct cs as [|q cs].
  - cbn [map concat join]. now rewrite app_nil_r.
  - change (concat (map (fun c => c ++ lit " ") (c :: q :: cs)))
      with ((c ++ lit " ")
            ++ concat (map (fun c => c ++ lit " ") (q :: cs))).
    rewrite IH by discriminate.
    change (join (lit " ") (c :: q :: cs))
      with (c ++ lit " " ++ join (lit " ") (q :: cs)).
    now rewrite <- !app_assoc.
Qed.

Lemma headOk_app s t : s <> [] -> headOk s -> headOk (s ++ t).
Proof. destruct s; [congruence | auto]. Qed.

Lemma trim_ends c :
  trim c = c -> headOk c /\ headOk (rev c).
Proof.
  intro H. split.
  - rewrite <- H. unfold trim. apply trimEnd_head, trimStart_head.
  - rewrite <- H. unfold trim, trimEnd. rewrite rev_involutive.
    apply trimStart_head.
Qed.

Lemma join_ends cs :
  cs <> [] -> Forall (fun c => c <> [] /\ trim c = c) cs ->
  join (lit " ") cs <> []
  /\ headOk (join (lit " ") cs) /\ headOk (rev (join (lit " ") cs)).
Proof.
  intros Hne Hall. induction Hall as [|c cs [Hc Ht] Hall IH]; [congruence|].
  destruct (trim_ends _ Ht) as [Hh Hl].
  destruct cs as [|q cs].
  - cbn [join]. auto.
  - destruct (IH ltac:(discriminate)) as (J1 & J2 & J3).
    change (join (lit " ") (c :: q :: cs))
      with (c ++ lit " " ++ join (lit " ") (q :: cs)).
    split; [|split].
    + destruct c; [congruence | discriminate].
    + now apply headOk_app.
    + rewrite !rev_app_distr, <- app_assoc. apply headOk_app; [|exact J3].
      intro E. apply J1. apply (f_equal (@rev _)) in E.
      now rewrite rev_involutive in E.
Qed.

(** Trimming the collected text takes away the one space after its last
    line and nothing else. *)
Lemma trim_joined cs :
  cs <> [] -> Forall (fun c => c <> [] /\ trim c = c) cs ->
  trim (concat (map (fun c => c ++ lit " ") cs)) = join (lit " ") cs.
Proof.
  intros Hne Hall. rewrite (concat_spaced _ Hne).
  destruct (join_ends _ Hne Hall) as (J1 & J2 & J3).
  unfold trim.
  rewrite (trimStart_fixed _ (headOk_app _ _ J1 J2)).
  unfold trimEnd. rewrite rev_app_distr.
  change (rev (lit " ")) with [32%N]. cbn [app trimStart].
  change (isWhiteSpace 32%N) with true. cbv iota.
  rewrite (trimStart_fixed _ J3). apply rev_involutive.
Qed.

Lemma cleaned_trimmed xs :
  Forall (fun c => c <> [] /\ trim c = c) (cleaned xs).
Proof.
  unfold cleaned. apply Forall_forall. intros c Hin.
  apply filter_In in Hin. destruct Hin as [Hin Hc].
  apply in_map_iff in Hin. destruct Hin as (x & <- & _).
  split; [|apply trim_idem].
  destruct (trim (stripTags x)); [discriminate | discriminate].
Qed.

(** X13.  One cue, whole: a timing line followed by its text lines, up to
    the end of the text, a blank line or the next timing line, gives one
    item whose text is the text lines with their tags deleted, each
    trimmed, the empty ones dropped, joined by single spaces; it gives no
    item when nothing is left of the text lines.  Parsing goes on with the
    line that ended the cue. *)
Theorem one_cue (l : jstring) (xs rest : list jstring) :
  includes arrow (trim l) = true ->
  Forall (fun x => isTextLine x = true) xs ->
  endsCue rest ->
  parseLines (l :: xs ++ rest)
  = match cleaned xs with
    | [] => []
    | cs => [cueItem l (join (lit " ") cs)]
    end ++ parseLines rest.
Proof.
  intros Hl Hxs Hrest.
  rewrite parseLines_cons, Hl, (cueLoop_text _ _ _ _ _ _ Hxs).
  rewrite (cueLoop_end _ _ _ _ Hrest). f_equal.
  cbn [app]. unfold pushCue.
  destruct (cleaned xs) as [|c cs] eqn:E.
  - reflexivity.
  - rewrite trim_joined;
      [| discriminate | rewrite <- E; apply cleaned_trimmed].
    destruct (join_ends (c :: cs) ltac:(discriminate)
                ltac:(rewrite <- E; apply cleaned_trimmed)) as (J1 & _).
    destruct (join (lit " ") (c :: cs)) as [|j js] eqn:Ej; [congruence|].
    cbn [truthy]. unfold cueItem.
    now destruct (cueTimes (trim l)).
Qed.

Lemma one_cue_witness :
  parseLines [lit "00:01.000 --> 00:03.500"; lit " <i>first</i> line ";
              lit "<c></c>"; lit "second"; lit ""; lit "tail"]
  = [cueItem (lit "00:01.000 --> 00:03.500") (lit "first line second")]
    ++ parseLines [lit ""; lit "tail"].
Proof.
  exact (one_cue (lit "00:01.000 --> 00:03.500")
           [lit " <i>first</i> line "; lit "<c></c>"; lit "second"]
           [lit ""; lit "tail"] eq_refl
           ltac:(repeat constructor) eq_refl).
Defined.

(* ===================================================================== *)
(** ** Further properties: time parser *)
(* ===================================================================== *)

Lemma splitGo_nonempty sep s : forall skip cur, splitGo sep skip cur s <> [].
Proof.
  induction s as [|c s IH]; intros skip cur; cbn [splitGo]; [discriminate|].
  destruct skip; [|apply IH].
  destruct (startsWith sep (c :: s)); [discriminate | apply IH].
Qed.

Lemma trimStart_colon a r :
  trimStart (a ++ colon :: r) = trimStart a ++ colon :: r.
Proof.
  induction a as [|x a IH]; [reflexivity|].
  cbn [app trimStart]. now destruct (isWhiteSpace x).
Qed.

Lemma readDigits_colon r a : forall acc cnt,
  readDigits acc cnt (a ++ colon :: r)
  = let '(v, n, rest) := readDigits acc cnt a in (v, n, rest ++ colon :: r).
Proof.
  induction a as [|x a IH]; intros acc cnt; [reflexivity|].
  cbn [app readDigits]. destruct (isDigit x); [apply IH | reflexivity].
Qed.

Lemma readExponent_colon r s :
  readExponent (s ++ colon :: r)
  = let '(ev, rest) := readExponent s in (ev, rest ++ colon :: r).
Proof.
  destruct s as [|x s]; [reflexivity|].
  cbn [app readExponent].
  destruct ((x =? 101)%N || (x =? 69)%N); [|reflexivity].
  destruct s as [|d s].
  - reflexivity.
  - cbn [app]. destruct (d =? 45)%N.
    + rewrite readDigits_colon.
      destruct (readDigits 0 0 s) as [[ev ne] s3]. now destruct ne.
    + destruct (d =? 43)%N.
      * rewrite readDigits_colon.
        destruct (readDigits 0 0 s) as [[ev ne] s3]. now destruct ne.
      * change (d :: s ++ colon :: r) with ((d :: s) ++ colon :: r).
        rewrite readDigits_colon.
        destruct (readDigits 0 0 (d :: s)) as [[ev ne] s3]. now destruct ne.
Qed.

Lemma startsWith_app_other p c r : forall s,
  ~ In c p -> startsWith p (s ++ c :: r) = startsWith p s.
Proof.
  induction p as [|x p IH]; intros s Hc; [reflexivity|].
  destruct s as [|y s].
  - cbn [app startsWith].
    destruct (char_eqb x c) eqn:E; [|reflexivity].
    apply N.eqb_eq in E. subst x. exfalso. apply Hc. now left.
  - cbn [app startsWith]. rewrite IH; [reflexivity|].
    intro H. apply Hc. now right.
Qed.

Lemma startsWith_length p : forall s,
  startsWith p s = true -> length p <= length s.
Proof.
  induction p as [|x p IH]; intros s H; [cbn; lia|].
  destruct s as [|y s]; [discriminate|].
  cbn [startsWith] in H. apply andb_true_iff in H. destruct H as [_ H].
  apply IH in H. cbn [length]. lia.
Qed.

Lemma readUnsigned_colon r s :
  readUnsigned (s ++ colon :: r)
  = match readUnsigned s with
    | Some (l, rest) => Some (l, rest ++ colon :: r)
    | None => None
    end.
Proof.
  unfold readUnsigned.
  rewrite startsWith_app_other
    by (cbn; intros [H|[H|[H|[H|[H|[H|[H|[H|[]]]]]]]]]; discriminate).
  destruct (startsWith (lit "Infinity") s) eqn:Einf.
  - apply startsWith_length in Einf. change (length (lit "Infinity")) with 8 in Einf.
    rewrite skipn_app. replace (8 - length s) with 0 by lia. reflexivity.
  - rewrite readDigits_colon.
    destruct (readDigits 0 0 s) as [[ip ni] r1].
    destruct r1 as [|c r1].
    + cbn [app]. change (colon =? 46)%N with false. cbv iota.
      destruct ni; [reflexivity|].
      pose proof (readExponent_colon r []) as He. cbn [app] in He.
      rewrite He. reflexivity.
    + cbn [app]. destruct (c =? 46)%N.
      * rewrite readDigits_colon.
        destruct (readDigits ip 0 r1) as [[fp nf] r2].
        destruct ni, nf; try reflexivity;
          rewrite readExponent_colon;
          now destruct (readExponent r2).
      * destruct ni; [reflexivity|].
        change (c :: r1 ++ colon :: r) with ((c :: r1) ++ colon :: r).
        rewrite readExponent_colon.
        now destruct (readExponent (c :: r1)).
Qed.

Lemma readSigned_colon r s :
  readSigned (s ++ colon :: r)
  = match readSigned s with
    | Some (neg, l, rest) => Some (neg, l, rest ++ colon :: r)
    | None => None
    end.
Proof.
  unfold readSigned. destruct s as [|c s].
  - cbn [app]. change (colon =? 45)%N with false.
    change (colon =? 43)%N with false. cbv iota.
    pose proof (readUnsigned_colon r []) as He. cbn [app] in He.
    rewrite He. now destruct (readUnsigned []) as [[l rest]|].
  - cbn [app]. destruct (c =? 45)%N.
    + rewrite readUnsigned_colon.
      now destruct (readUnsigned s) as [[l rest]|].
    + destruct (c =? 43)%N.
      * rewrite readUnsigned_colon.
        now destruct (readUnsigned s) as [[l rest]|].
      * change (c :: s ++ colon :: r) with ((c :: s) ++ colon :: r).
        rewrite readUnsigned_colon.
        now destruct (readUnsigned (c :: s)) as [[l rest]|].
Qed.

(** [parseFloat] does not read past a colon. *)
Lemma parseFloat_colon a r : parseFloat (a ++ colon :: r) = parseFloat a.
Proof.
  unfold parseFloat. rewrite trimStart_colon, readSigned_colon.
  now destruct (readSigned (trimStart a)) as [[[neg l] rest]|].
Qed.

(** X14.  A time string with four fields or more is no error and no sum:
    it goes to [parseFloat] as it stands, which stops at the first colon,
    so the result is the number at the head of the first field, the rest
    being ignored. *)
Theorem timeToSeconds_many_fields (a b c d : jstring) :
  lacks colon a -> lacks colon b -> lacks colon c ->
  timeToSeconds (a ++ colon :: b ++ colon :: c ++ colon :: d) = parseFloat a.
Proof.
  intros Ha Hb Hc. unfold timeToSeconds.
  change (lit ":") with [colon].
  rewrite (split_char_cons _ _ _ Ha), (split_char_cons _ _ _ Hb),
    (split_char_cons _ _ _ Hc).
  pose proof (splitGo_nonempty [colon] d 0 []) as Hd. fold (split [colon] d) in Hd.
  destruct (split [colon] d) as [|e es]; [congruence|].
  apply parseFloat_colon.
Qed.

Lemma timeToSeconds_many_fields_witness :
  timeToSeconds (lit "00:00:04.000 align:start position:0%")
  = parseFloat (lit "00").
Proof.
  exact (timeToSeconds_many_fields (lit "00") (lit "00")
           (lit "04.000 align") (lit "start position:0%")
           eq_refl eq_refl eq_refl).
Defined.

(* ===================================================================== *)
(** ** Further properties: the calls of one item *)
(* ===================================================================== *)

Lemma execs_app a b : execs (a ++ b) = execs a + execs b.
Proof. unfold execs. now rewrite filter_app, length_app. Qed.

Lemma unlinks_app a b : unlinks (a ++ b) = unlinks a + unlinks b.
Proof. unfold unlinks. now rewrite filter_app, length_app. Qed.

Section Calls.

Variables Track Value W : Type.
Variable env : Env Track Value W.

Lemma Adds_refl (st : State W) : Adds st st [].
Proof. split; [now rewrite app_nil_r | reflexivity]. Qed.

Lemma Adds_trans (st1 st2 st3 : State W) e1 e2 :
  Adds st1 st2 e1 -> Adds st2 st3 e2 -> Adds st1 st3 (e1 ++ e2).
Proof.
  intros [H1 H2] [H3 H4]. split; [|congruence].
  now rewrite H3, H1, app_assoc.
Qed.

Lemma logged_Adds ev (st : State W) w : Adds st (logged ev st w) [ev].
Proof. split; reflexivity. Qed.

(** The metadata are fetched with one run of the downloader, whether it
    succeeds or not. *)
Lemma getVideoMetadata_adds binaryPath cookiePath url (st : State W) :
  exists cmd,
    Adds st (fst (getVideoMetadata env binaryPath cookiePath url st))
      [Exec cmd].
Proof.
  unfold getVideoMetadata, bind, doExec.
  destruct (execAsync env _ (world st)) as [w [msg|stdout]].
  - eexists. apply logged_Adds.
  - destruct (JSON_parse env stdout); eexists; apply logged_Adds.
Qed.

(** The candidate files are read in order, up to the first one that can be
    read. *)
Lemma readFirst_adds files : forall st : State W,
  exists reads,
    Adds st (fst (readFirst env files st)) (map ReadFile reads)
    /\ exists content file,
         snd (readFirst env files st) = inr (content, file)
         /\ ((content = [] /\ file = [] /\ reads = files)
             \/ (exists before, reads = before ++ [file] /\ In file files)).
Proof.
  induction files as [|f files IH]; intro st.
  - exists []. split; [apply Adds_refl|].
    exists [], []. split; [reflexivity|]. now left.
  - cbn [readFirst]. unfold bind, doReadFile.
    destruct (readFile env f (world st)) as [w [content|]].
    + exists [f]. split; [apply logged_Adds|].
      exists content, f. split; [reflexivity|]. right.
      exists []. split; [reflexivity | now left].
    + destruct (IH (logged (ReadFile f) st w))
        as (reads & HA & content & file & Hr & Hcase).
      exists (f :: reads). split.
      * exact (Adds_trans _ _ _ [ReadFile f] _ (logged_Adds _ st w) HA).
      * exists content, file. split; [exact Hr|].
        destruct Hcase as [(H1 & H2 & H3)|(before & H1 & H2)].
        -- left. now subst.
        -- right. exists (f :: before). split; [now subst | now right].
Qed.


Lemma truthy_app_r (a b : jstring) : truthy b = true -> truthy (a ++ b) = true.
Proof. destruct a; [auto | reflexivity]. Qed.

(** What [downloadAndParseTranscript] does outside: one run of the
    downloader, then reads of candidate files; on success the file that was
    read is deleted last and its text was not empty, on failure nothing is
    deleted. *)
Lemma download_adds binaryPath cookiePath url lang itemIndex isManual
  (st st' : State W) r :
  downloadAndParseTranscript env binaryPath cookiePath url lang
    itemIndex isManual st = (st', r) ->
  exists cmd reads,
    match r with
    | inr items =>
        exists file content,
          Adds st st'
            (Exec cmd :: map ReadFile (reads ++ [file]) ++ [Unlink file])
          /\ content <> [] /\ items = parseTranscriptContent content
    | inl _ => Adds st st' (Exec cmd :: map ReadFile reads)
    end.
Proof.
  unfold downloadAndParseTranscript, bind at 1, dateNow.
  destruct (Date_now env (world st)) as [w0 t].
  unfold bind at 1, doExec. cbn [world log cookieFilePath].
  match goal with |- context [execAsync env ?c w0] => set (cmd := c) end.
  destruct (execAsync env cmd w0) as [w1 [msg|out]].
  - intros [= <- <-]. exists cmd, []. split; reflexivity.
  - match goal with |- context [readFirst env ?fs] => set (files := fs) end.
    set (s1 := logged (Exec cmd)
                 {| world := w0; log := log st;
                    cookieFilePath := cookieFilePath st |} w1).
    assert (H1 : Adds st s1 [Exec cmd]) by (split; reflexivity).
    destruct (readFirst_adds files s1)
      as (reads & HA & content & file & Hr & Hcase).
    unfold bind at 1.
    destruct (readFirst env files s1) as [s2 r2]. cbn [fst snd] in *.
    subst r2.
    pose proof (Adds_trans _ _ _ _ _ H1 HA) as H2. cbn [app] in H2.
    destruct content as [|c content]; cbn [truthy negb].
    + intros [= <- <-]. exists cmd, reads. exact H2.
    + destruct Hcase as [(Hc & _)|(before & Hreads & Hin)]; [discriminate|].
      assert (Hfile : truthy file = true).
      { unfold files in Hin. cbn [In] in Hin.
        repeat (destruct Hin as [<-|Hin]; [now apply truthy_app_r|]).
        destruct Hin. }
      rewrite Hfile. unfold bind, doUnlink, ret.
      destruct (unlink env file (world s2)) as [w3 ok].
      intros [= <- <-].
      exists cmd, before, file, (c :: content).
      split; [|split; [discriminate | reflexivity]].
      subst reads.
      replace (Exec cmd :: map ReadFile (before ++ [file]) ++ [Unlink file])
        with ((Exec cmd :: map ReadFile (before ++ [file])) ++ [Unlink file])
        by reflexivity.
      exact (Adds_trans _ _ _ _ _ H2 (logged_Adds _ s2 w3)).
Qed.


(** The cookie step never fails; with a cookie string it writes the
    temporary file and remembers its path, with a cookie file it remembers
    the path given, and it calls nothing else. *)
Lemma handleCookies_run p itemIndex (st : State W) :
  let sc := fst (handleCookies env p itemIndex st) in
  snd (handleCookies env p itemIndex st) = inr tt
  /\ if usesTempCookie p
     then log sc = log st ++ [WriteFile (tempCookiePath env itemIndex (world st))
                                (cookieFileContent p)]
          /\ cookieFilePath sc = tempCookiePath env itemIndex (world st)
     else log sc = log st
          /\ cookieFilePath sc
             = if str_eqb (p_authMethod p) (lit "cookieString")
               then cookieFilePath st
               else if str_eqb (p_authMethod p) (lit "cookieFile")
                    then p_cookieFile p
                    else cookieFilePath st.
Proof.
  unfold handleCookies, usesTempCookie, tempCookiePath, cookieFileContent.
  destruct (str_eqb (p_authMethod p) (lit "cookieString")); cbn [andb].
  - destruct (truthy (trim (p_cookieString p))).
    + unfold bind, dateNow, setCookieFilePath, doWriteFile, ret.
      destruct (Date_now env (world st)) as [w0 t].
      cbn [world log cookieFilePath snd].
      destruct (writeFile env _ _ w0) as [w1 ok].
      cbn. auto.
    + cbn. auto.
  - destruct (str_eqb (p_authMethod p) (lit "cookieFile")); cbn; auto.
Qed.

Lemma fetchInfo_adds p itemIndex (st st' : State W) r :
  fetchInfo env p itemIndex st = (st', r) ->
  exists cmd, Adds (fst (handleCookies env p itemIndex st)) st' [Exec cmd].
Proof.
  unfold fetchInfo, bind at 1.
  destruct (handleCookies_run p itemIndex st) as [Hok _].
  destruct (handleCookies env p itemIndex st) as [sc rc].
  cbn [fst snd] in *. subst rc.
  unfold bind at 1, getCookieFilePath.
  destruct (p_includeMetadata p).
  - unfold bind at 1 2.
    destruct (getVideoMetadata_adds (p_binaryPath p) (cookieFilePath sc)
                (normalizeVideoUrl (p_videoId p)) sc) as [cmd HA].
    destruct (getVideoMetadata env _ _ _ sc) as [s2 [e|info]];
      cbn [fst] in HA; intros [= <- <-]; now exists cmd.
  - unfold bind at 1, ret at 1. unfold bind at 1.
    destruct (getVideoMetadata_adds (p_binaryPath p) (cookieFilePath sc)
                (normalizeVideoUrl (p_videoId p)) sc) as [cmd HA].
    destruct (getVideoMetadata env _ _ _ sc) as [s2 [e|info]];
      cbn [fst] in HA; intros [= <- <-]; now exists cmd.
Qed.

(** The calls of the [try] block of an item with a video reference. *)
Lemma tryBody_calls p itemIndex (st st' : State W) r :
  truthy (trim (p_videoId p)) = true ->
  tryBody env p itemIndex st = (st', r) ->
  exists evs,
    Adds (fst (handleCookies env p itemIndex st)) st' evs
    /\ ItemCalls evs (succeeded r).
Proof.
  intros Hvid. unfold tryBody. rewrite Hvid. cbn [negb].
  unfold bind at 1.
  destruct (fetchInfo env p itemIndex st) as [s1 [e|[parsedInfo info]]] eqn:Ef;
    destruct (fetchInfo_adds _ _ _ _ _ Ef) as [c1 H1].
  - intros [= <- <-]. exists [Exec c1]. split; [exact H1|].
    exists c1. left. now split.
  - unfold bind at 1, getCookieFilePath.
    destruct (selectedSubtitle _) as [sel|].
    + unfold bind at 1.
      destruct (downloadAndParseTranscript env _ _ _ _ _ _ s1)
        as [s2 [e|items]] eqn:Ed;
        destruct (download_adds _ _ _ _ _ _ _ _ _ Ed) as (c2 & reads & H2).
      * intros [= <- <-].
        exists ([Exec c1] ++ Exec c2 :: map ReadFile reads).
        split; [exact (Adds_trans _ _ _ _ _ H1 H2)|].
        exists c1. right. left. exists c2, reads. now split.
      * destruct H2 as (file & content & H2 & _).
        intros [= <- <-].
        exists ([Exec c1] ++ Exec c2 :: map ReadFile (reads ++ [file])
                ++ [Unlink file]).
        split; [exact (Adds_trans _ _ _ _ _ H1 H2)|].
        exists c1. right. right. exists c2, reads, file. now split.
    + intros [= <- <-]. exists [Exec c1]. split; [exact H1|].
      exists c1. left. now split.
Qed.

End Calls.

Section Iteration.

Variables Track Value W : Type.
Variable env : Env Track Value W.

Lemma tryBody_blank p itemIndex (st : State W) :
  truthy (trim (p_videoId p)) = false ->
  tryBody env p itemIndex st
  = (st, inl (NodeOperationError (lit "The video ID/URL parameter is empty.")
                (Some itemIndex))).
Proof. intro H. unfold tryBody. now rewrite H. Qed.

Lemma catchBlock_not_result continueOnFail p itemIndex e :
  isResult (@catchBlock Value continueOnFail p itemIndex e) = false.
Proof.
  unfold catchBlock.
  destruct (_ || _); [reflexivity|]. now destruct continueOnFail.
Qed.

(** All the outside calls of one iteration, in order: the write of the
    temporary cookie file if one is used, the calls of the [try] block,
    and the deletion of the temporary cookie file. *)
Lemma executeItem_calls continueOnFail p itemIndex (w : W) :
  truthy (trim (p_videoId p)) = true ->
  let path := tempCookiePath env itemIndex w in
  let res := executeItem env continueOnFail p itemIndex w in
  exists evs,
    ItemCalls evs (isResult (fst (fst res)))
    /\ snd res
       = (if usesTempCookie p
          then [WriteFile path (cookieFileContent p)] else [])
         ++ evs
         ++ (if usesTempCookie p && truthy path then [Unlink path] else []).
Proof.
  intros Hvid path res. subst res. unfold executeItem.
  destruct (tryBody env p itemIndex (initialState w)) as [st1 r] eqn:Et.
  destruct (tryBody_calls _ _ _ _ _ _ _ _ _ Hvid Et) as (evs & [HA1 HA2] & Hcalls).
  destruct (handleCookies_run _ _ _ env p itemIndex (initialState w))
    as [_ Hc].
  cbn zeta in Hc. cbn [fst snd].
  exists evs. split.
  { destruct r as [e|result]; cbn [succeeded] in Hcalls.
    - now rewrite catchBlock_not_result.
    - exact Hcalls. }
  unfold finallyBlock. rewrite HA2.
  unfold usesTempCookie in *.
  destruct (str_eqb (p_authMethod p) (lit "cookieString")); cbn [andb] in *.
  - destruct (truthy (trim (p_cookieString p))).
    + destruct Hc as [Hl Hp]. cbn [initialState log world] in Hl, Hp.
      rewrite Hp. fold path. rewrite andb_true_r.
      destruct (truthy path).
      * unfold doUnlink.
        destruct (unlink env path (world st1)) as [w' ok].
        cbn [fst logged log]. rewrite HA1, Hl. reflexivity.
      * rewrite HA1, Hl. cbn [app andb]. now rewrite app_nil_r.
    + destruct Hc as [Hl Hp]. cbn [initialState log cookieFilePath] in Hl, Hp.
      rewrite Hp. cbn [truthy andb app].
      rewrite HA1, Hl. cbn [app]. now rewrite app_nil_r.
  - rewrite andb_false_r. destruct Hc as [Hl Hp].
    cbn [initialState log] in Hl. rewrite HA1, Hl. cbn [app].
    now rewrite app_nil_r.
Qed.

Lemma executeItem_blank continueOnFail p itemIndex (w : W) :
  truthy (trim (p_videoId p)) = false ->
  snd (executeItem env continueOnFail p itemIndex w) = []
  /\ isResult (fst (fst (executeItem env continueOnFail p itemIndex w)))
     = false.
Proof.
  intro H. unfold executeItem. rewrite (tryBody_blank _ _ _ H).
  cbn [fst snd]. rewrite catchBlock_not_result.
  split; reflexivity.
Qed.

Lemma ItemCalls_counts evs ok :
  ItemCalls evs ok ->
  1 <= execs evs <= 2
  /\ (ok = true -> execs evs = 2 /\ unlinks evs = 1)
  /\ (ok = false -> unlinks evs = 0)
  /\ Forall (fun ev => isWrite ev = false) evs
  /\ (forall f, In (Unlink f) evs ->
        exists before, evs = before ++ [ReadFile f; Unlink f]).
Proof.
  assert (Hr : forall reads,
             execs (map ReadFile reads) = 0
             /\ unlinks (map ReadFile reads) = 0
             /\ Forall (fun ev => isWrite ev = false) (map ReadFile reads)
             /\ forall f, ~ In (Unlink f) (map ReadFile reads)).
  { induction reads as [|x reads (I1 & I2 & I3 & I4)].
    - repeat split; [constructor | intros f []].
    - repeat split; [exact I1 | exact I2 | now constructor |].
      intros f [H|H]; [discriminate | exact (I4 f H)]. }
  intros [c1 [[-> ->]|[(c2 & reads & -> & ->)|(c2 & reads & file & -> & ->)]]].
  - repeat split; try (cbn; lia); try discriminate.
    + repeat constructor.
    + intros f [H|[]]. discriminate.
  - destruct (Hr reads) as (I1 & I2 & I3 & I4).
    change (Exec c1 :: Exec c2 :: map ReadFile reads)
      with ([Exec c1; Exec c2] ++ map ReadFile reads).
    rewrite execs_app, unlinks_app, I1, I2.
    repeat split; try (cbn; lia); try discriminate.
    + apply Forall_app. split; [repeat constructor | exact I3].
    + intros f Hin. apply in_app_or in Hin.
      destruct Hin as [[H|[H|[]]]|H]; try discriminate.
      now apply I4 in H.
  - destruct (Hr (reads ++ [file])) as (I1 & I2 & I3 & I4).
    change (Exec c1 :: Exec c2 :: map ReadFile (reads ++ [file])
            ++ [Unlink file])
      with ([Exec c1; Exec c2] ++ map ReadFile (reads ++ [file])
            ++ [Unlink file]).
    rewrite !execs_app, !unlinks_app, I1, I2.
    repeat split; try (cbn; lia); try discriminate.
    + apply Forall_app. split; [repeat constructor|].
      apply Forall_app. split; [exact I3 | repeat constructor].
    + intros f Hin. apply in_app_or in Hin.
      destruct Hin as [[H|[H|[]]]|H]; try discriminate.
      apply in_app_or in H. destruct H as [H|[H|[]]];
        [now apply I4 in H|].
      injection H as <-.
      exists ([Exec c1; Exec c2] ++ map ReadFile reads).
      rewrite map_app. cbn [map]. now rewrite <- !app_assoc.
Qed.

End Iteration.

(** X15.  With a cookie string, the temporary cookie file is the first thing
    the iteration touches and the last: it is written before anything else
    and deleted at the very end, whether the item succeeds, fails into an
    error record or aborts the run; nothing else is written. *)
Theorem temp_cookie_removed (Track Value W : Type) (env : Env Track Value W)
  (continueOnFail : bool) (p : NodeParameters) (itemIndex : nat) (w : W) :
  usesTempCookie p = true ->
  truthy (trim (p_videoId p)) = true ->
  truthy (tempCookiePath env itemIndex w) = true ->
  exists mid,
    snd (executeItem env continueOnFail p itemIndex w)
    = WriteFile (tempCookiePath env itemIndex w) (cookieFileContent p)
      :: mid ++ [Unlink (tempCookiePath env itemIndex w)]
    /\ Forall (fun ev => isWrite ev = false) mid.
Proof.
  intros Hc Hvid Hpath.
  destruct (executeItem_calls _ _ _ env continueOnFail p itemIndex w Hvid)
    as (evs & Hcalls & Hlog).
  rewrite Hc, Hpath in Hlog. exists evs. split; [exact Hlog|].
  apply (ItemCalls_counts _ _ Hcalls).
Qed.

Lemma temp_cookie_removed_witness :
  exists mid,
    snd (executeItem (demoEnv [] []) true
           (demoParams (lit "abc") (lit "en") (lit "cookieString") (lit "k=v"))
           3 tt)
    = WriteFile (lit "/tmp/yt-cookies-7-3.txt")
        (lit "# Netscape HTTP Cookie File" ++ LF ++ lit "k=v")
      :: mid ++ [Unlink (lit "/tmp/yt-cookies-7-3.txt")]
    /\ Forall (fun ev => isWrite ev = false) mid.
Proof.
  exact (temp_cookie_removed unit unit unit (demoEnv [] []) true
           (demoParams (lit "abc") (lit "en") (lit "cookieString") (lit "k=v"))
           3 tt eq_refl eq_refl eq_refl).
Defined.

(** X16.  Without a temporary cookie file (no authentication, a cookie file
    of the user's, or an empty cookie string) the iteration writes no file,
    and it deletes at most one: a subtitle file, right after reading it.
    The cleanup at the end deletes nothing, so a cookie file given by path
    is left in place. *)
Theorem no_temp_cookie_no_write (Track Value W : Type)
  (env : Env Track Value W) (continueOnFail : bool) (p : NodeParameters)
  (itemIndex : nat) (w : W) :
  usesTempCookie p = false ->
  let evs := snd (executeItem env continueOnFail p itemIndex w) in
  Forall (fun ev => isWrite ev = false) evs
  /\ unlinks evs <= 1
  /\ (forall f, In (Unlink f) evs ->
        exists before, evs = before ++ [ReadFile f; Unlink f]).
Proof.
  intros Hc evs. subst evs.
  destruct (truthy (trim (p_videoId p))) eqn:Hvid.
  - destruct (executeItem_calls _ _ _ env continueOnFail p itemIndex w Hvid)
      as (evs & Hcalls & Hlog).
    rewrite Hc in Hlog. cbn [andb app] in Hlog. rewrite app_nil_r in Hlog.
    rewrite Hlog.
    destruct (ItemCalls_counts _ _ Hcalls) as (_ & H2 & H3 & H4 & H5).
    split; [exact H4|]. split; [|exact H5].
    destruct (isResult _); [destruct (H2 eq_refl) | rewrite (H3 eq_refl)]; lia.
  - destruct (executeItem_blank _ _ _ env continueOnFail p itemIndex w Hvid)
      as [-> _].
    split; [constructor|]. split; [cbn; lia | intros f []].
Qed.

Lemma no_temp_cookie_no_write_witness :
  unlinks (snd (executeItem (demoEnv [(lit "en", [tt])] (lit "x")) false
                  (demoParams (lit "abc") (lit "en") (lit "cookieFile") [])
                  0 tt)) <= 1.
Proof.
  exact (proj1 (proj2 (no_temp_cookie_no_write unit unit unit
           (demoEnv [(lit "en", [tt])] (lit "x")) false
           (demoParams (lit "abc") (lit "en") (lit "cookieFile") [])
           0 tt eq_refl))).
Defined.




(* ===================================================================== *)
(** ** Further properties: the loop over the items *)
(* ===================================================================== *)

Section Loop.

Variables Track Value W : Type.
Variable env : Env Track Value W.

Lemma executeItem_paired continueOnFail p itemIndex (w : W) out :
  fst (fst (executeItem env continueOnFail p itemIndex w)) = Pushed out ->
  pairedItem out = itemIndex.
Proof.
  unfold executeItem.
  destruct (tryBody env p itemIndex (initialState w)) as [st1 [e|res]];
    cbn [fst].
  - unfold catchBlock. destruct (_ || _); [discriminate|].
    destruct continueOnFail; [|discriminate]. now intros [= <-].
  - now intros [= <-].
Qed.

Lemma executeItem_thrown continueOnFail p itemIndex (w : W) e :
  fst (fst (executeItem env continueOnFail p itemIndex w)) = Thrown Value e ->
  e = binaryNotFound itemIndex \/ continueOnFail = false.
Proof.
  unfold executeItem.
  destruct (tryBody env p itemIndex (initialState w)) as [st1 [e0|res]];
    cbn [fst]; [|discriminate].
  unfold catchBlock. destruct (_ || _).
  - intros [= <-]. now left.
  - destruct continueOnFail; [discriminate | now right].
Qed.

Lemma executeFrom_output continueOnFail items : forall itemIndex rd (w : W)
  calls data w' evs,
  executeFrom env continueOnFail items itemIndex rd w calls
  = (inr data, w', evs) ->
  exists new, data = rd ++ new
              /\ map (@pairedItem Value) new = seq itemIndex (length items).
Proof.
  induction items as [|p items IH]; intros i rd w calls data w' evs H.
  - cbn in H. injection H as <- _ _. exists []. now rewrite app_nil_r.
  - cbn [executeFrom] in H.
    destruct (executeItem env continueOnFail p i w) as [[o w1] ev1] eqn:E.
    destruct o as [out|e]; [|discriminate].
    apply IH in H. destruct H as (new & -> & Hnew).
    exists (out :: new). split; [now rewrite <- app_assoc|].
    cbn [map seq length]. f_equal; [|exact Hnew].
    eapply executeItem_paired. rewrite E. reflexivity.
Qed.

Lemma executeFrom_error items : forall itemIndex rd (w : W) calls e w' evs,
  executeFrom env true items itemIndex rd w calls = (inl e, w', evs) ->
  exists k, itemIndex <= k < itemIndex + length items
            /\ e = binaryNotFound k.
Proof.
  induction items as [|p items IH]; intros i rd w calls e w' evs H.
  - discriminate.
  - cbn [executeFrom] in H.
    destruct (executeItem env true p i w) as [[o w1] ev1] eqn:E.
    destruct o as [out|e0].
    + apply IH in H. destruct H as (k & Hk & ->).
      exists k. split; [cbn [length]; lia | reflexivity].
    + injection H as <- _ _.
      destruct (executeItem_thrown true p i w e0) as [->|]; 
        [now rewrite E | | discriminate].
      exists i. split; [cbn [length]; lia | reflexivity].
Qed.

End Loop.

(** X19.  When [execute] returns, it returns one output per input item, in
    the order of the input, each paired with the index of its item: error
    records stand in the place of the items that failed. *)
Theorem execute_output_shape (Track Value W : Type) (env : Env Track Value W)
  (continueOnFail : bool) (items : list NodeParameters) (w w' : W)
  (data : list (NodeExecutionData Value)) (evs : list Event) :
  execute env continueOnFail items w = (inr data, w', evs) ->
  length data = length items
  /\ map (@pairedItem Value) data = seq 0 (length items).
Proof.
  intro H. unfold execute in H.
  destruct (executeFrom_output _ _ _ env _ _ _ _ _ _ _ _ _ H)
    as (new & -> & Hnew).
  cbn [app]. split; [|exact Hnew].
  rewrite <- (length_map (@pairedItem Value)), Hnew. apply length_seq.
Qed.

Lemma execute_output_shape_witness :
  map (@pairedItem unit)
    [ {| json := ErrorData unit (lit "The video ID/URL parameter is empty.") [];
         pairedItem := 0 |};
      {| json := ErrorData unit (lit "The video ID/URL parameter is empty.")
                   (lit " ");
         pairedItem := 1 |} ]
  = seq 0 2.
Proof.
  exact (proj2 (execute_output_shape unit unit unit (demoEnv [] []) true
                  [demoParams [] (lit "en") (lit "none") [];
                   demoParams (lit " ") (lit "en") (lit "none") []]
                  tt tt _ [] eq_refl)).
Defined.

(** X20.  With "continue on fail" the only error that can still abort
    [execute] is the one of the [catch] block about the downloader binary:
    every other failure of an item becomes an error record. *)
Theorem execute_continue_on_fail (Track Value W : Type)
  (env : Env Track Value W) (items : list NodeParameters) (w w' : W)
  (e : Error) (evs : list Event) :
  execute env true items w = (inl e, w', evs) ->
  exists k, k < length items /\ e = binaryNotFound k.
Proof.
  intro H. unfold execute in H.
  destruct (executeFrom_error _ _ _ env _ _ _ _ _ _ _ _ H) as (k & Hk & ->).
  exists k. split; [lia | reflexivity].
Qed.

Lemma execute_continue_on_fail_witness :
  exists k, k < 2 /\ binaryNotFound 1 = binaryNotFound k.
Proof.
  exact (execute_continue_on_fail unit unit unit brokenEnv
           [demoParams [] (lit "en") (lit "none") [];
            demoParams (lit "abc") (lit "en") (lit "none") []]
           tt tt (binaryNotFound 1) _ eq_refl).
Defined.

(* ===================================================================== *)
(** ** Further properties: the result of an item *)
(* ===================================================================== *)

Section Result.

Variables Track Value W : Type.
Variable env : Env Track Value W.

(** [parsedInfo] is set exactly when the metadata are asked for, and is
    then the object the tracks are read from. *)
Lemma fetchInfo_parsed p itemIndex (st st' : State W) parsedInfo info :
  fetchInfo env p itemIndex st = (st', inr (parsedInfo, info)) ->
  parsedInfo = if p_includeMetadata p then Some info else None.
Proof.
  unfold fetchInfo, bind at 1.
  destruct (handleCookies_run _ _ _ env p itemIndex st) as [Hok _].
  destruct (handleCookies env p itemIndex st) as [sc rc].
  cbn [fst snd] in *. subst rc.
  unfold bind at 1, getCookieFilePath.
  destruct (p_includeMetadata p).
  - unfold bind at 1 2.
    destruct (getVideoMetadata env _ _ _ sc) as [s2 [e|i]];
      [discriminate|].
    unfold ret, bind. now intros [= _ <- <-].
  - unfold bind at 1, ret at 1. unfold bind at 1.
    destruct (getVideoMetadata env _ _ _ sc) as [s2 [e|i]];
      [discriminate|].
    unfold ret. now intros [= _ <- <-].
Qed.

Lemma tryBody_no_transcript p itemIndex (st st1 : State W) parsedInfo info :
  truthy (trim (p_videoId p)) = true ->
  fetchInfo env p itemIndex st = (st1, inr (parsedInfo, info)) ->
  (forall v, In v (langVariants (langOf p)) ->
             inEither (subtitlesOf info) (autoCaptionsOf info) v = false) ->
  tryBody env p itemIndex st
  = (st1, inl (NodeOperationError
                 (noTranscriptMessage (langOf p) (subtitlesOf info)
                    (autoCaptionsOf info))
                 (Some itemIndex))).
Proof.
  intros Hvid Hfetch Hnone. unfold tryBody. rewrite Hvid. cbn [negb].
  unfold bind at 1. rewrite Hfetch.
  unfold bind at 1. unfold getCookieFilePath.
  now rewrite (findBestSubtitle_none Track _ _ _ Hnone).
Qed.

Lemma tryBody_result p itemIndex (st st' : State W) res :
  tryBody env p itemIndex st = (st', inr res) ->
  youtubeId res = extractVideoId (p_videoId p)
  /\ videoUrl res = normalizeVideoUrl (p_videoId p)
  /\ language res = langOf p
  /\ (subtitleType res = lit "manual"
      \/ subtitleType res = lit "auto-generated")
  /\ (metadata res <> None <-> p_includeMetadata p = true)
  /\ exists items,
       transcriptLength res = length items
       /\ transcript res = (if wantsStructured p then Some items else None)
       /\ transcriptText res
          = (if wantsPlain p
             then Some (join (lit " ") (map text items)) else None).
Proof.
  unfold tryBody.
  destruct (truthy (trim (p_videoId p))); cbn [negb]; [|discriminate].
  unfold bind at 1.
  destruct (fetchInfo env p itemIndex st) as [s1 [e|[parsedInfo info]]] eqn:Ef;
    [discriminate|].
  apply fetchInfo_parsed in Ef.
  unfold bind at 1, getCookieFilePath.
  destruct (selectedSubtitle _) as [sel|]; [|discriminate].
  unfold bind at 1.
  destruct (downloadAndParseTranscript env _ _ _ _ _ _ s1)
    as [s2 [e|items]]; [discriminate|].
  unfold ret. intros [= _ <-]. cbn.
  repeat split.
  - destruct (isManualSubtitle _); [now left | now right].
  - subst parsedInfo. destruct (p_includeMetadata p); congruence.
  - subst parsedInfo. intros ->. discriminate.
  - exists items. repeat split.
Qed.

End Result.







(* ===================================================================== *)
(** ** Further properties: lines the cue parser does not see *)
(* ===================================================================== *)

(** X23.  Lines in front of the first timing line (the [WEBVTT] header,
    [Kind:] and [Language:] lines, the cue number of an SRT file) leave no
    trace in the transcript. *)
Theorem header_lines_ignored (pre ls : list jstring) :
  Forall (fun l => includes arrow (trim l) = false) pre ->
  parseLines (pre ++ ls) = parseLines ls.
Proof.
  induction 1 as [|l pre Hl _ IH]; [reflexivity|].
  cbn [app]. rewrite parseLines_cons, Hl. exact IH.
Qed.

Lemma header_lines_ignored_witness :
  parseLines ([lit "WEBVTT"; lit "Kind: captions"; lit ""; lit "1"]
              ++ [lit "00:01.000 --> 00:02.000"; lit "Hi"])
  = parseLines [lit "00:01.000 --> 00:02.000"; lit "Hi"].
Proof.
  exact (header_lines_ignored
           [lit "WEBVTT"; lit "Kind: captions"; lit ""; lit "1"]
           [lit "00:01.000 --> 00:02.000"; lit "Hi"]
           ltac:(repeat constructor)).
Defined.

Lemma trimEnd_app_space l c :
  isWhiteSpace c = true -> trimEnd (l ++ [c]) = trimEnd l.
Proof.
  intro H. unfold trimEnd. rewrite rev_app_distr. cbn [rev app trimStart].
  now rewrite H.
Qed.

Lemma trimStart_app_space c : forall l,
  isWhiteSpace c = true ->
  trimStart (l ++ [c]) = match trimStart l with
                         | [] => []
                         | t => t ++ [c]
                         end.
Proof.
  intros l H. induction l as [|x l IH].
  - cbn. now rewrite H.
  - cbn [app trimStart]. destruct (isWhiteSpace x); [exact IH | reflexivity].
Qed.

Lemma trim_app_space l c : isWhiteSpace c = true -> trim (l ++ [c]) = trim l.
Proof.
  intro H. unfold trim. rewrite (trimStart_app_space c l H).
  destruct (trimStart l) as [|x t]; [reflexivity|].
  now apply trimEnd_app_space.
Qed.

Lemma includes_nil_false p : p <> [] -> includes p [] = false.
Proof. destruct p; [congruence | reflexivity]. Qed.

Lemma includes_app_other p c : forall s,
  p <> [] -> ~ In c p -> includes p (s ++ [c]) = includes p s.
Proof.
  intros s Hp Hc. induction s as [|x s IH].
  - cbn [app]. rewrite (includes_nil_false _ Hp).
    destruct p as [|y p]; [congruence|]. cbn.
    destruct (char_eqb y c) eqn:E; [|reflexivity].
    apply N.eqb_eq in E. subst y. exfalso. apply Hc. now left.
  - change ((x :: s) ++ [c]) with (x :: (s ++ [c])). cbn [includes].
    rewrite IH. f_equal.
    exact (startsWith_app_other p c [] (x :: s) Hc).
Qed.

Lemma afterGt_app s c :
  existsb (N.eqb 62) s = true -> afterGt (s ++ [c]) = afterGt s ++ [c].
Proof.
  induction s as [|d s IH]; [discriminate|].
  cbn [existsb app afterGt]. rewrite (N.eqb_sym 62 d).
  destruct (d =? 62)%N; [reflexivity | exact IH].
Qed.

Lemma existsb_app_other c s :
  c <> 62%N -> existsb (N.eqb 62) (s ++ [c]) = existsb (N.eqb 62) s.
Proof.
  intro H. rewrite existsb_app. cbn [existsb].
  replace (62 =? c)%N with false; [now rewrite !orb_false_r|].
  symmetry. apply N.eqb_neq. congruence.
Qed.

Lemma stripTags_app_other_bounded c n : forall s,
  c <> 60%N -> c <> 62%N -> length s <= n ->
  stripTags (s ++ [c]) = stripTags s ++ [c].
Proof.
  induction n as [|n IH]; intros [|d s] H1 H2 Hlen;
    try (cbn in Hlen; lia).
  - cbn. replace (c =? 60)%N with false; [reflexivity|].
    symmetry. now apply N.eqb_neq.
  - cbn. replace (c =? 60)%N with false; [reflexivity|].
    symmetry. now apply N.eqb_neq.
  - cbn [app]. rewrite !stripTags_cons.
    rewrite (existsb_app_other c s H2).
    destruct ((d =? 60)%N && existsb (N.eqb 62) s) eqn:E.
    + apply andb_true_iff in E. destruct E as [_ E].
      rewrite (afterGt_app _ _ E).
      apply IH; [exact H1 | exact H2 |].
      pose proof (afterGt_length s). cbn [length] in Hlen.
      unfold jstring, char in *. lia.
    + cbn [app]. f_equal.
      apply IH; [exact H1 | exact H2 |]. cbn [length] in Hlen.
      unfold jstring, char in *. lia.
Qed.

Lemma stripTags_app_other c s :
  c <> 60%N -> c <> 62%N -> stripTags (s ++ [c]) = stripTags s ++ [c].
Proof. intros. now apply (stripTags_app_other_bounded c (length s)). Qed.

Section TrailingUnit.

Variable c : char.
Hypothesis c_space : isWhiteSpace c = true.
Hypothesis c_not_blank : c <> 32%N.

Lemma unit_not_in_arrow : ~ In c arrow.
Proof.
  cbn. intros [H|[H|[H|[H|[H|[]]]]]]; subst c; try discriminate.
  all: congruence.
Qed.

Lemma line_with_unit x :
  trim (x ++ [c]) = trim x
  /\ includes arrow (x ++ [c]) = includes arrow x
  /\ trim (stripTags (x ++ [c])) = trim (stripTags x).
Proof.
  split; [now apply trim_app_space|]. split.
  - apply includes_app_other; [discriminate | apply unit_not_in_arrow].
  - rewrite stripTags_app_other.
    + now apply trim_app_space.
    + intros ->. discriminate.
    + intros ->. discriminate.
Qed.

Lemma parseLines_with_unit ls :
  parseLines (map (fun l => l ++ [c]) ls) = parseLines ls
  /\ forall s d t,
       cueLoop parseLines s d t (map (fun l => l ++ [c]) ls)
       = cueLoop parseLines s d t ls.
Proof.
  induction ls as [|x ls [IH1 IH2]]; [split; reflexivity|].
  destruct (line_with_unit x) as (E1 & E2 & E3).
  cbn [map].
  assert (H1 : parseLines ((x ++ [c]) :: map (fun l => l ++ [c]) ls)
               = parseLines (x :: ls)).
  { rewrite !parseLines_cons, E1.
    destruct (includes arrow (trim x)); [apply IH2 | exact IH1]. }
  split; [exact H1|]. intros s d t.
  rewrite !cueLoop_cons, E1, E2, E3.
  destruct (truthy (trim x) && negb (includes arrow x)); [apply IH2|].
  f_equal. exact H1.
Qed.

End TrailingUnit.

(** X24.  A carriage return at the end of the lines (a file with Windows
    line ends), or any other white space there except the plain space,
    changes nothing in the transcript.  A plain space can: after [-->] it
    completes the separator. *)
Theorem trailing_carriage_return (c : char) (ls : list jstring) :
  isWhiteSpace c = true -> c <> 32%N ->
  parseLines (map (fun l => l ++ [c]) ls) = parseLines ls.
Proof. intros H1 H2. now apply parseLines_with_unit. Qed.

Lemma trailing_carriage_return_witness :
  parseLines (map (fun l => l ++ [13%N])
                [lit "00:01.000 --> 00:02.000"; lit "Hi"; lit ""])
  = parseLines [lit "00:01.000 --> 00:02.000"; lit "Hi"; lit ""].
Proof.
  exact (trailing_carriage_return 13%N
           [lit "00:01.000 --> 00:02.000"; lit "Hi"; lit ""]
           eq_refl ltac:(discriminate)).
Defined.
